(** * MXCM: the M3U / XMLTV channel matcher, core engine (core.py)

    A shallow embedding of the matching-and-generation engine of core.py:
    the name normaliser, the index builder, the tiered matcher, the two
    document generators and the playlist parser, with the two loops of
    app.py that re-apply the threshold and count the results, followed by
    the properties of the engine.

    Text.  A Python [str] is modelled by [string]; a character is one of the
    256 code points U+0000..U+00FF.  Text functions work on the list of
    characters of a string ([chars]) and rebuild a string with [text].

    Collaborators outside the repository.  The similarity scorer of the
    fuzzywuzzy library and the iteration order of a Python set are taken as
    section variables of the matcher. *)

From Stdlib Require Import ZArith NArith Ascii String List Lia.
From stdpp Require Import base option list gmap sets strings sorting.

#[local] Set Warnings "-clear-no-such-hyp".

Local Open Scope string_scope.
Local Open Scope list_scope.
Local Open Scope Z_scope.

(** ** Characters and strings *)

Definition chars (s : string) : list ascii := list_ascii_of_string s.
Definition text (l : list ascii) : string := string_of_list_ascii l.

Definition code (c : ascii) : N := N_of_ascii c.

Definition in_range (lo hi : N) (c : ascii) : bool :=
  (lo <=? code c)%N && (code c <=? hi)%N.

(** [a-z] and [0-9] of the regular expressions. *)
Definition is_lower_az (c : ascii) : bool := in_range 97 122 c.
Definition is_digit (c : ascii) : bool := in_range 48 57 c.

(** [\s] of a str pattern, [str.strip()] and [str.split()]: the white space
    of Python below U+0100 is TAB..CR, FS..US, SPACE, NEL and NBSP. *)
Definition is_space (c : ascii) : bool :=
  in_range 9 13 c || in_range 28 32 c || (code c =? 133)%N || (code c =? 160)%N.

(** [str.lower()] on one character: A-Z, and the upper-case letters of
    Latin-1 (U+00C0..U+00DE without the multiplication sign U+00D7). *)
Definition lower_char (c : ascii) : ascii :=
  if in_range 65 90 c || (in_range 192 222 c && negb (code c =? 215)%N)
  then ascii_of_N (code c + 32)
  else c.

Definition space : ascii := " "%char.

Definition py_lower (l : list ascii) : list ascii := map lower_char l.

(** [re.sub(r'\s+', ' ', l)]: [in_run] tells that the previous character
    belonged to the run of white space being replaced. *)
Fixpoint collapse_ws (in_run : bool) (l : list ascii) : list ascii :=
  match l with
  | [] => []
  | c :: l' =>
      if is_space c
      then (if in_run then collapse_ws true l' else space :: collapse_ws true l')
      else c :: collapse_ws false l'
  end.

Fixpoint lstrip (l : list ascii) : list ascii :=
  match l with
  | [] => []
  | c :: l' => if is_space c then lstrip l' else l
  end.

Definition rstrip (l : list ascii) : list ascii :=
  foldr (fun c acc =>
           match acc with
           | [] => if is_space c then [] else [c]
           | _ => c :: acc
           end) [] l.

(** [str.strip()] *)
Definition py_strip (l : list ascii) : list ascii := rstrip (lstrip l).

(** [str.split()] without argument: the maximal runs of characters that
    are not white space.  [cur] holds the current run, reversed. *)
Fixpoint split_ws (cur : list ascii) (l : list ascii) : list (list ascii) :=
  match l with
  | [] => match cur with [] => [] | _ => [rev cur] end
  | c :: l' =>
      if is_space c
      then match cur with
           | [] => split_ws [] l'
           | _ => rev cur :: split_ws [] l'
           end
      else split_ws (c :: cur) l'
  end.

Definition py_split (s : string) : list string := map text (split_ws [] (chars s)).

Definition strip (s : string) : string := text (py_strip (chars s)).

(** ** Name normaliser *)

(** The characters that [re.sub(r'[^a-z0-9\s]', '', name)] keeps. *)
Definition kept (c : ascii) : bool := is_lower_az c || is_digit c || is_space c.

Definition normalize_chars (l : list ascii) : list ascii :=
  let l := py_lower l in
  let l := filter (fun c => kept c = true) l in
  py_strip (collapse_ws false l).

Definition normalize_name (name : string) : string :=
  text (normalize_chars (chars name)).

(** ** Data model *)

(** A subtree of a guide document, as the engine uses it: its tag, its
    attributes and the rest of its content, which the engine never reads. *)
Record Element := {
  tag : string;
  attrib : list (string * string);
  content : string
}.

(** [elem.get(key)] *)
Fixpoint attrib_get (key : string) (l : list (string * string)) : option string :=
  match l with
  | [] => None
  | (k, v) :: l' => if decide (k = key) then Some v else attrib_get key l'
  end.

Definition elem_get (key : string) (e : Element) : option string :=
  attrib_get key (attrib e).

(** One playlist entry, the dictionary built by [parse_m3u]. *)
Record PlaylistEntry := {
  pe_name : string;
  pe_url : string;
  pe_original_extinf : string;
  pe_tvg_id : string;
  pe_group_title : string;
  pe_tvg_logo : string;
  pe_source_file : string
}.

(** One guide channel, the dictionary built by [parse_xmltv].  The id is
    [channel_elem.get('id')], which is [None] when the attribute is
    missing. *)
Record Channel := {
  ch_id : option string;
  ch_display_name : string;
  ch_all_display_names : list string;
  ch_element : Element;
  ch_icon : option string;
  ch_source_file : string
}.

Record MatchResult := {
  m3u_data : PlaylistEntry;
  xmltv_match : option Channel;
  score : Z;
  selected : bool
}.

(** ** Index builder *)

(** [token_index.setdefault(token, set()).add(name)] *)
Definition token_add (token name : string) (token_index : gmap string (gset string))
  : gmap string (gset string) :=
  <[token := default ∅ (token_index !! token) ∪ {[name]}]> token_index.

(** The inner loop of [build_xmltv_indices] for one channel. *)
Definition index_channel_tokens (token_index : gmap string (gset string)) (xml_ch : Channel)
  : gmap string (gset string) :=
  let original_display_name := ch_display_name xml_ch in
  let normalized_display_name := normalize_name original_display_name in
  foldl (fun ti token =>
           if (1 <? String.length token)%nat
           then token_add token original_display_name ti
           else ti)
        token_index (py_split normalized_display_name).

Definition build_xmltv_indices (xmltv_channels : list Channel)
  : gmap string (gset string) * gmap string Channel * gmap (option string) Channel :=
  let channels_by_display_name :=
    foldl (fun m ch => <[normalize_name (ch_display_name ch) := ch]> m) ∅ xmltv_channels in
  let channels_by_id :=
    foldl (fun m ch => <[ch_id ch := ch]> m) ∅ xmltv_channels in
  let token_index := foldl index_channel_tokens ∅ xmltv_channels in
  (token_index, channels_by_display_name, channels_by_id).

(** The three indices by name. *)
Definition token_index_of (xmltv_channels : list Channel) : gmap string (gset string) :=
  (build_xmltv_indices xmltv_channels).1.1.
Definition channels_by_display_name_of (xmltv_channels : list Channel)
  : gmap string Channel :=
  (build_xmltv_indices xmltv_channels).1.2.
Definition channels_by_id_of (xmltv_channels : list Channel)
  : gmap (option string) Channel :=
  (build_xmltv_indices xmltv_channels).2.

(** ** Matching engine *)

(** What the matching loop does that a caller can observe in order: a call
    of the progress callback, and the append of an entry's result. *)
Inductive event :=
  | ProgressCall (count : nat)
  | ResultAppended (r : MatchResult).

(** [enumerate(l)] *)
Definition enumerate {A} (l : list A) : list (nat * A) := imap (fun i x => (i, x)) l.

(** [max(l, key=lambda i: i[1])]: the first element of greatest score. *)
Definition py_max_score (l : list (string * Z)) : option (string * Z) :=
  match l with
  | [] => None
  | x :: l' => Some (foldl (fun best y => if best.2 <? y.2 then y else best) x l')
  end.

Section Matcher.

(** [fuzz.ratio] on the query and a choice, both passed through the
    default processor of [process.extractOne]. *)
Variable fuzz_ratio : string -> string -> Z.

(** [list(candidate_names)]: the order in which a set is iterated. *)
Variable set_order : gset string -> list string.

(** [process.extractWithoutOrder], with [score_cutoff = 0]. *)
Definition extractWithoutOrder (query : string) (choices : list string)
  : list (string * Z) :=
  filter (fun p => 0 <= p.2) (map (fun choice => (choice, fuzz_ratio query choice)) choices).

Definition extractOne (query : string) (choices : list string) : option (string * Z) :=
  py_max_score (extractWithoutOrder query choices).

(** The union built by the loop over [m3u_tokens]. *)
Definition candidate_names (token_index : gmap string (gset string))
    (normalized_m3u_name : string) : gset string :=
  foldl (fun acc token =>
           if (1 <? String.length token)%nat
           then acc ∪ default ∅ (token_index !! token)
           else acc)
        ∅ (py_split normalized_m3u_name).

Definition fuzzy_choices (token_index : gmap string (gset string))
    (all_xmltv_original_display_names : list string)
    (normalized_m3u_name : string) : list string :=
  let cands := candidate_names token_index normalized_m3u_name in
  if decide (cands = ∅) then all_xmltv_original_display_names else set_order cands.

(** The test of the first rule:
    [preserve_existing and tvg_id and tvg_id in channels_by_id],
    on the stripped identifier hint. *)
Definition id_rule_applies (channels_by_id : gmap (option string) Channel)
    (preserve_existing : bool) (m3u_channel : PlaylistEntry) : bool :=
  let tvg_id := strip (pe_tvg_id m3u_channel) in
  preserve_existing && negb (String.eqb tvg_id "")
    && bool_decide (is_Some (channels_by_id !! Some tvg_id)).

(** The body of the matching loop up to the append: the association and
    the score of one playlist entry. *)
Definition match_entry
    (indices : gmap string (gset string) * gmap string Channel * gmap (option string) Channel)
    (all_xmltv_original_display_names : list string)
    (preserve_existing : bool) (m3u_channel : PlaylistEntry) : option Channel * Z :=
  let '(token_index, channels_by_display_name, channels_by_id) := indices in
  let tvg_id := strip (pe_tvg_id m3u_channel) in
  if id_rule_applies channels_by_id preserve_existing m3u_channel
  then (channels_by_id !! Some tvg_id, 100)
  else
    let m3u_name := pe_name m3u_channel in
    let normalized_m3u_name := normalize_name m3u_name in
    match channels_by_display_name !! normalized_m3u_name with
    | Some ch => (Some ch, 100)
    | None =>
        let choices :=
          fuzzy_choices token_index all_xmltv_original_display_names normalized_m3u_name in
        match choices with
        | [] => (None, 0)
        | _ :: _ =>
            match extractOne m3u_name choices with
            | Some (matched_name, match_score) =>
                (channels_by_display_name !! normalize_name matched_name, match_score)
            | None => (None, 0)
            end
        end
    end.

Definition make_result (threshold : Z) (m3u_channel : PlaylistEntry)
    (m : option Channel * Z) : MatchResult :=
  {| m3u_data := m3u_channel;
     xmltv_match := m.1;
     score := m.2;
     selected := bool_decide (threshold <= m.2) |}.

(** One iteration of the loop of [auto_match_channels]; the state is the
    list [processed_channels_data] and the trace of events so far. *)
Definition match_step
    (indices : gmap string (gset string) * gmap string Channel * gmap (option string) Channel)
    (all_names : list string) (threshold : Z) (preserve_existing : bool)
    (progress_callback : bool)
    (st : list MatchResult * list event) (im : nat * PlaylistEntry)
  : list MatchResult * list event :=
  let '(i, m3u_channel) := im in
  let '(processed_channels_data, trace) := st in
  let trace :=
    if progress_callback then trace ++ [ProgressCall (i + 1)%nat] else trace in
  let r := make_result threshold m3u_channel
             (match_entry indices all_names preserve_existing m3u_channel) in
  (processed_channels_data ++ [r], trace ++ [ResultAppended r]).

(** [auto_match_channels]: the result list it returns, and the trace of
    callback calls and appends it went through.  [progress_callback]
    tells whether a callback was supplied. *)
Definition auto_match_channels_traced
    (m3u_channels : list PlaylistEntry) (xmltv_channels : list Channel)
    (threshold : Z) (preserve_existing : bool) (progress_callback : bool)
  : list MatchResult * list event :=
  match xmltv_channels with
  | [] => ([], [])
  | _ :: _ =>
      let indices := build_xmltv_indices xmltv_channels in
      let all_xmltv_original_display_names := map ch_display_name xmltv_channels in
      foldl (match_step indices all_xmltv_original_display_names threshold
               preserve_existing progress_callback)
            ([], []) (enumerate m3u_channels)
  end.

Definition auto_match_channels
    (m3u_channels : list PlaylistEntry) (xmltv_channels : list Channel)
    (threshold : Z) (preserve_existing : bool) (progress_callback : bool)
  : list MatchResult :=
  (auto_match_channels_traced m3u_channels xmltv_channels threshold
     preserve_existing progress_callback).1.

End Matcher.

(** ** Playlist generator *)

Definition dquote : ascii := "034"%char.
Definition comma : ascii := ","%char.
Definition backslash : ascii := "092"%char.
Definition minus : ascii := "-"%char.

(** [Some rest] when [l = p ++ rest]. *)
Fixpoint after_prefix (p l : list ascii) : option (list ascii) :=
  match p, l with
  | [], _ => Some l
  | _ :: _, [] => None
  | a :: p', b :: l' => if decide (a = b) then after_prefix p' l' else None
  end.

(** [p in l] for strings: [p] occurs in [l] at some position. *)
Fixpoint contains (p l : list ascii) : bool :=
  match l with
  | [] => bool_decide (p = [])
  | _ :: l' => bool_decide (is_Some (after_prefix p l)) || contains p l'
  end.

(** The opening of an identifier attribute: the letters of tvg-id= and a
    double quote. *)
Definition tvg_id_open : list ascii := chars "tvg-id=" ++ [dquote].

(** The attribute text built by the f-string of the generator: the
    opening, the identifier and a closing double quote. *)
Definition tvg_id_attr (id_text : list ascii) : list ascii :=
  tvg_id_open ++ id_text ++ [dquote].

(** The length of the longest run of characters other than a double quote
    at the head of [l], when a double quote follows it. *)
Fixpoint quoted_body_len (l : list ascii) : option nat :=
  match l with
  | [] => None
  | c :: l' => if decide (c = dquote) then Some 0%nat else S <$> quoted_body_len l'
  end.

(** The regular expression of the identifier attribute (the opening, any
    run of characters other than a double quote, a double quote) matched
    at the head of [l]: the length of the match. *)
Definition match_tvg_id (l : list ascii) : option nat :=
  r ← after_prefix tvg_id_open l;
  n ← quoted_body_len r;
  Some (length tvg_id_open + n + 1)%nat.

(** [re.sub] of the identifier attribute by [repl], a replacement without
    backslash: every match, leftmost first, is replaced; [skip] counts the
    characters of the current match still to be passed over. *)
Fixpoint re_sub_tvg_id (repl : list ascii) (skip : nat) (l : list ascii) : list ascii :=
  match l with
  | [] => []
  | c :: l' =>
      match skip with
      | S k => re_sub_tvg_id repl k l'
      | O =>
          match match_tvg_id l with
          | Some n => repl ++ re_sub_tvg_id repl (n - 1) l'
          | None => c :: re_sub_tvg_id repl 0 l'
          end
      end
  end.

(** The values of the identifier attributes of [l], as [re.findall]
    lists them with a group around the quoted value. *)
Fixpoint findall_tvg_id (skip : nat) (l : list ascii) : list (list ascii) :=
  match l with
  | [] => []
  | _ :: l' =>
      match skip with
      | S k => findall_tvg_id k l'
      | O =>
          match match_tvg_id l with
          | Some n =>
              take (n - length tvg_id_open - 1) (drop (length tvg_id_open) l)
                :: findall_tvg_id (n - 1) l'
          | None => findall_tvg_id 0 l'
          end
      end
  end.

Fixpoint count_digits (l : list ascii) : nat :=
  match l with
  | c :: l' => if is_digit c then S (count_digits l') else 0%nat
  | [] => 0%nat
  end.

(** The regular expression [#EXTINF:[-]?\d+] matched at the head of [l]:
    the length of the match. *)
Definition match_extinf (l : list ascii) : option nat :=
  r ← after_prefix (chars "#EXTINF:") l;
  let '(sign, r') :=
    match r with
    | c :: r' => if decide (c = minus) then (1%nat, r') else (0%nat, r)
    | [] => (0%nat, r)
    end in
  match count_digits r' with
  | O => None
  | S d => Some (length (chars "#EXTINF:") + sign + S d)%nat
  end.

(** [re.sub(r'(#EXTINF:[-]?\d+)', rf'\1' + ins, l, 1)] for an [ins]
    without backslash: [ins] is inserted after the first match. *)
Fixpoint re_sub_extinf_first (ins : list ascii) (l : list ascii) : list ascii :=
  match l with
  | [] => []
  | c :: l' =>
      match match_extinf l with
      | Some n => take n l ++ ins ++ drop n l
      | None => c :: re_sub_extinf_first ins l'
      end
  end.

(** [l.rfind(c)], with [None] for -1. *)
Fixpoint rfind (c : ascii) (l : list ascii) : option nat :=
  match l with
  | [] => None
  | x :: l' =>
      match rfind c l' with
      | Some i => Some (S i)
      | None => if decide (x = c) then Some 0%nat else None
      end
  end.

(** [str(xmltv['id'])] inside an f-string. *)
Definition id_text (id : option string) : list ascii :=
  match id with
  | Some s => chars s
  | None => chars "None"
  end.

(** The rewrite of one descriptor in [generate_m3u], up to and including
    the final [strip()].  A replacement template that holds a backslash is
    interpreted by [re.sub] (group references, escapes); such identifiers
    are outside this model, which answers [None] for them. *)
Definition rewrite_extinf (original_extinf : string) (id : option string)
    (display_name : string) : option string :=
  let extinf := chars original_extinf in
  let ident := id_text id in
  if contains [backslash] ident then None
  else
    let new_extinf := re_sub_tvg_id (tvg_id_attr ident) 0 extinf in
    let new_extinf :=
      if contains (tvg_id_attr ident) new_extinf then new_extinf
      else re_sub_extinf_first (space :: tvg_id_attr ident) new_extinf in
    let new_extinf :=
      match rfind comma new_extinf with
      | Some last_comma => take (last_comma + 1) new_extinf ++ chars display_name
      | None => new_extinf
      end in
    Some (text (py_strip new_extinf)).

(** [generate_m3u]: the lines written to the file and the count returned;
    [None] when a descriptor is outside the model of [rewrite_extinf]. *)
Fixpoint generate_m3u_lines (processed_channels_data : list MatchResult)
  : option (list string * nat) :=
  match processed_channels_data with
  | [] => Some ([], 0%nat)
  | item :: rest =>
      match selected item, xmltv_match item with
      | true, Some xmltv =>
          let m3u := m3u_data item in
          new_extinf ← rewrite_extinf (pe_original_extinf m3u) (ch_id xmltv)
                         (ch_display_name xmltv);
          '(lines, count) ← generate_m3u_lines rest;
          Some (new_extinf :: pe_url m3u :: lines, S count)
      | _, _ => generate_m3u_lines rest
      end
  end.

Definition generate_m3u (processed_channels_data : list MatchResult)
  : option (list string * nat) :=
  '(lines, count) ← generate_m3u_lines processed_channels_data;
  Some ("#EXTM3U" :: lines, count).

(** ** Guide generator *)

(** How the streaming pass over one source file ends: at the end of the
    file; with a parse error, which the generator catches (the rest of the
    file is skipped); or with any other error (a file that cannot be opened
    or decompressed, a directory), which reaches the outer handler of the
    generator. *)
Inductive StreamEnd := EndOfFile | ParseError | OtherError.

#[local] Instance StreamEnd_eq_dec : EqDecision StreamEnd.
Proof. solve_decision. Defined.

(** One file of the guide folder: its name, what [parse_xmltv] makes of it
    ([None] when it raises), the programme elements that the streaming
    parser yields for it before it ends, and how it ends. *)
Record SourceFile := {
  sf_name : string;
  sf_channels : option (list Channel);
  sf_programmes : list Element;
  sf_stream_end : StreamEnd
}.

(** The document written: the attribute of the root, the channel subtrees
    and the programme entries, in the order written. *)
Record Document := {
  doc_generator : string;
  doc_channels : list Element;
  doc_programmes : list Element
}.

(** What a run of the generator leaves behind: no file at all (nothing is
    selected), the complete document, or what was written of the document
    before an error reached the outer handler. *)
Inductive Output :=
  | NoOutput
  | Complete (doc : Document)
  | Partial (doc : Document).

(** [s.endswith(suffix)] *)
Definition endswith (s suffix : list ascii) : bool :=
  bool_decide (is_Some (after_prefix (rev suffix) (rev s))).

(** [f.lower().endswith(('.xml', '.gz', '.xmltv'))] *)
Definition is_guide_file (f : string) : bool :=
  let l := py_lower (chars f) in
  endswith l (chars ".xml") || endswith l (chars ".gz") || endswith l (chars ".xmltv").

Definition xmltv_files (folder : list SourceFile) : list SourceFile :=
  filter (fun f => is_guide_file (sf_name f) = true) folder.

(** The channels of every file that parses, in order. *)
Definition all_source_xmltv_channels (files : list SourceFile) : list Channel :=
  concat (map (fun f => default [] (sf_channels f)) files).

(** A truthy identifier: present and not empty. *)
Definition truthy_id (id : option string) : option string :=
  match id with
  | Some s => if String.eqb s "" then None else Some s
  | None => None
  end.

Definition full_channel_data_map (channels : list Channel) : gmap string Element :=
  foldl (fun m ch =>
           match truthy_id (ch_id ch) with
           | Some i => <[i := ch_element ch]> m
           | None => m
           end) ∅ channels.

(** One iteration of the first pass over the match results. *)
Definition collect_step (full : gmap string Element)
    (st : gset string * gmap string Element) (item : MatchResult)
  : gset string * gmap string Element :=
  let '(selected_channel_ids, channel_elements_to_write) := st in
  match selected item, xmltv_match item with
  | true, Some xmltv =>
      match truthy_id (ch_id xmltv) with
      | Some channel_id =>
          (selected_channel_ids ∪ {[channel_id]},
           match full !! channel_id, channel_elements_to_write !! channel_id with
           | Some e, None => <[channel_id := e]> channel_elements_to_write
           | _, _ => channel_elements_to_write
           end)
      | None => st
      end
  | _, _ => st
  end.

(** [sorted(d.keys())] on strings: ascending code point order. *)
Definition sorted_keys (d : gmap string Element) : list string :=
  merge_sort String.le (map_to_list d).*1.

(** [elem.get('channel') in selected_channel_ids] *)
Definition programme_wanted (selected_channel_ids : gset string) (elem : Element) : bool :=
  match elem_get "channel" elem with
  | Some c => bool_decide (c ∈ selected_channel_ids)
  | None => false
  end.

(** The streaming loop over the programmes of one file: the entries
    written so far and [program_count]. *)
Definition stream_programmes (selected_channel_ids : gset string)
    (st : list Element * nat) (f : SourceFile) : list Element * nat :=
  foldl (fun st elem =>
           if programme_wanted selected_channel_ids elem
           then (st.1 ++ [elem], S st.2)
           else st)
        st (sf_programmes f).

(** The loop of the second pass over the source files: the entries
    written and [program_count], and whether the loop ran to its end.  A
    file whose streaming ends with an error other than a parse error stops
    the loop: the exception leaves it, and the files after it are not
    read. *)
Fixpoint stream_files (selected_channel_ids : gset string)
    (st : list Element * nat) (files : list SourceFile) : list Element * nat * bool :=
  match files with
  | [] => (st, true)
  | f :: rest =>
      let st' := stream_programmes selected_channel_ids st f in
      match sf_stream_end f with
      | OtherError => (st', false)
      | EndOfFile | ParseError => stream_files selected_channel_ids st' rest
      end
  end.

(** [generate_xmltv], for an output file that can be written: what is
    written and the pair of counts returned.  When an error leaves the
    loop over the source files, the outer handler returns 0, 0 and the
    document stays as far as it was written. *)
Definition generate_xmltv (processed_channels_data : list MatchResult)
    (xmltv_folder : list SourceFile) : Output * (nat * nat) :=
  let files := xmltv_files xmltv_folder in
  let full := full_channel_data_map (all_source_xmltv_channels files) in
  let '(selected_channel_ids, channel_elements_to_write) :=
    foldl (collect_step full) (∅, ∅) processed_channels_data in
  if decide (selected_channel_ids = ∅) then (NoOutput, (0%nat, 0%nat))
  else
    let channels :=
      omap (fun channel_id => channel_elements_to_write !! channel_id)
           (sorted_keys channel_elements_to_write) in
    let '(programmes, program_count, finished) :=
      stream_files selected_channel_ids ([], 0%nat) files in
    let doc := {| doc_generator := "M3U-XMLTV Matcher";
                  doc_channels := channels;
                  doc_programmes := programmes |} in
    if finished
    then (Complete doc, (size channel_elements_to_write, program_count))
    else (Partial doc, (0%nat, 0%nat)).

(** ** Playlist parser *)

Definition newline : ascii := "010"%char.

(** [l.find(c)] for one character, with [None] for -1. *)
Fixpoint find_char (c : ascii) (l : list ascii) : option nat :=
  match l with
  | [] => None
  | x :: l' => if decide (x = c) then Some 0%nat else S <$> find_char c l'
  end.

(** The second lazy [.*?] of the entry pattern, which stops at the first
    position where the lookahead holds: a newline followed by #EXTINF:, or
    the end of the text.  The number of characters it takes. *)
Fixpoint entry_rest_len (l : list ascii) : nat :=
  match l with
  | [] => 0%nat
  | _ :: l' =>
      if bool_decide (is_Some (after_prefix (newline :: chars "#EXTINF:") l))
      then 0%nat
      else S (entry_rest_len l')
  end.

(** The entry pattern of [parse_m3u] (#EXTINF:, lazily anything up to the
    first newline, lazily anything up to the lookahead; DOTALL) matched at
    the head of [l]: the length of the match. *)
Definition match_m3u_entry (l : list ascii) : option nat :=
  r ← after_prefix (chars "#EXTINF:") l;
  k ← find_char newline r;
  Some (length (chars "#EXTINF:") + k + 1 + entry_rest_len (drop (k + 1) r))%nat.

(** [re.findall] of the entry pattern: the matches, leftmost first and
    without overlap; [skip] counts the characters of the current match
    still to be passed over. *)
Fixpoint findall_m3u_entries (skip : nat) (l : list ascii) : list (list ascii) :=
  match l with
  | [] => []
  | _ :: l' =>
      match skip with
      | S k => findall_m3u_entries k l'
      | O =>
          match match_m3u_entry l with
          | Some n => take n l :: findall_m3u_entries (n - 1) l'
          | None => findall_m3u_entries 0 l'
          end
      end
  end.

(** The opening of the attribute [name]: the name, an equals sign and a
    double quote. *)
Definition attr_open (name : string) : list ascii :=
  chars name ++ chars "=" ++ [dquote].

(** An attribute pattern of [parse_m3u] (the opening, one or more
    characters other than a double quote, a double quote) matched at the
    head of [l]: the text of its group. *)
Definition match_attr (name : string) (l : list ascii) : option (list ascii) :=
  r ← after_prefix (attr_open name) l;
  n ← quoted_body_len r;
  if (n =? 0)%nat then None else Some (take n r).

(** [re.search] of an attribute pattern: group 1 of the leftmost match. *)
Fixpoint search_attr (name : string) (l : list ascii) : option (list ascii) :=
  match l with
  | [] => None
  | _ :: l' =>
      match match_attr name l with
      | Some v => Some v
      | None => search_attr name l'
      end
  end.

(** [extinf_line.split(',')[-1]] *)
Definition last_comma_field (l : list ascii) : list ascii :=
  match rfind comma l with
  | Some i => drop (i + 1) l
  | None => l
  end.

(** The body of the loop of [parse_m3u] for one entry; [None] stands for
    the error of unpacking [entry.split('\n', 1)] when the entry has no
    newline. *)
Definition parse_m3u_entry (source_file : string) (entry : list ascii)
  : option PlaylistEntry :=
  k ← find_char newline entry;
  let extinf_line := take k entry in
  let url_line := drop (k + 1) entry in
  let attr name :=
    match search_attr name extinf_line with
    | Some v => py_strip v
    | None => []
    end in
  let channel_name :=
    match search_attr "tvg-name" extinf_line with
    | Some v => py_strip v
    | None => py_strip (last_comma_field extinf_line)
    end in
  Some {| pe_name := text channel_name;
          pe_url := text (py_strip url_line);
          pe_original_extinf := text extinf_line;
          pe_tvg_id := text (attr "tvg-id");
          pe_group_title := text (attr "group-title");
          pe_tvg_logo := text (attr "tvg-logo");
          pe_source_file := source_file |}.

(** [parse_m3u] on the decoded content of a file whose base name is
    [source_file]; [None] when the loop raises. *)
Definition parse_m3u (source_file : string) (content : string)
  : option (list PlaylistEntry) :=
  mapM (parse_m3u_entry source_file) (findall_m3u_entries 0 (chars content)).

(** The text of a file written line by line, each line followed by a
    newline, as [generate_m3u] writes it. *)
Definition file_text (lines : list string) : string :=
  text (concat (map (fun line => chars line ++ [newline]) lines)).

Definition cr : ascii := "013"%char.

(** What [f.read()] returns for a file opened in text mode, with universal
    newlines: a carriage return followed by a newline, and a carriage
    return alone, are read as one newline. *)
Fixpoint universal_newlines (l : list ascii) : list ascii :=
  match l with
  | [] => []
  | c :: l' =>
      if decide (c = cr) then
        newline ::
          match l' with
          | n :: l'' => if decide (n = newline) then universal_newlines l''
                        else universal_newlines l'
          | [] => []
          end
      else c :: universal_newlines l'
  end.

(** The content read from a file that holds the text [written]. *)
Definition read_text (written : string) : string :=
  text (universal_newlines (chars written)).

(** ** Callers of the engine (app.py) *)

(** The loop of [_on_threshold_change] and of [run_headless]:
    [item_data['selected'] = (item_data['score'] >= threshold)] for every
    result. *)
Definition apply_threshold (threshold : Z) (processed_channels_data : list MatchResult)
  : list MatchResult :=
  map (fun item_data =>
         {| m3u_data := m3u_data item_data;
            xmltv_match := xmltv_match item_data;
            score := score item_data;
            selected := bool_decide (threshold <= score item_data) |})
      processed_channels_data.

(** The counts of [_update_match_counts]: total, matched, unmatched and
    selected; [None] when there is no result and the label shows a hint
    instead. *)
Definition update_match_counts (threshold : Z) (processed_channels_data : list MatchResult)
  : option (nat * nat * nat * nat) :=
  match processed_channels_data with
  | [] => None
  | _ :: _ =>
      let total := length processed_channels_data in
      let matched :=
        length (filter (fun item => is_Some (xmltv_match item) /\ threshold <= score item)
                  processed_channels_data) in
      let selected_count :=
        length (filter (fun item => selected item = true) processed_channels_data) in
      Some (total, matched, (total - matched)%nat, selected_count)
  end.

(** * Notions used in the statements *)

(** ** Shapes of text *)

(** White space occurs only as single space characters; [prev] tells that
    the character before [l] is white space. *)
Fixpoint single_spaced (prev : bool) (l : list ascii) : bool :=
  match l with
  | [] => true
  | c :: l' =>
      if is_space c
      then bool_decide (c = space) && negb prev && single_spaced true l'
      else single_spaced false l'
  end.

Definition no_leading_space (l : list ascii) : Prop :=
  match l with
  | c :: _ => is_space c = false
  | [] => True
  end.

(** The descriptor has an identifier attribute: the regular expression of
    the attribute matches somewhere in [l]. *)
Fixpoint has_tvg_id (l : list ascii) : bool :=
  match l with
  | [] => false
  | _ :: l' => bool_decide (is_Some (match_tvg_id l)) || has_tvg_id l'
  end.

(** The text after the final comma of [l]; all of [l] without a comma. *)
Definition after_last_comma (l : list ascii) : list ascii :=
  match rfind comma l with
  | Some i => drop (i + 1) l
  | None => l
  end.

Definition starts_with_digit (l : list ascii) : bool :=
  match l with
  | c :: _ => is_digit c
  | [] => false
  end.

(** The leading numeric field of a descriptor. *)
Definition extinf_field (sign digits : list ascii) : list ascii :=
  chars "#EXTINF:" ++ sign ++ digits.

(** A quoted attribute value. *)
Definition quoted (s : string) : list ascii := dquote :: chars s ++ [dquote].

(** ** Indices *)

(** A dictionary comprehension [{key(x): x for x in l}]: the last entry
    of a key wins. *)
Definition dict_of {K V : Type} `{Countable K} (key : V -> K) (l : list V) : gmap K V :=
  foldl (fun m x => <[key x := x]> m) ∅ l.

(** The names registered under [token]. *)
Definition names_of (token_index : gmap string (gset string)) (token : string)
  : gset string :=
  default ∅ (token_index !! token).

Definition long_token (token : string) : Prop := (1 < String.length token)%nat.

(** ** Results and events of the matching loop *)

(** The result appended for one entry. *)
Definition entry_result
    (fuzz_ratio : string -> string -> Z) (set_order : gset string -> list string)
    (indices : gmap string (gset string) * gmap string Channel * gmap (option string) Channel)
    (names : list string) (threshold : Z) (preserve_existing : bool)
    (m3u_channel : PlaylistEntry) : MatchResult :=
  make_result threshold m3u_channel
    (match_entry fuzz_ratio set_order indices names preserve_existing m3u_channel).

(** The events of one iteration, in order. *)
Definition entry_events
    (fuzz_ratio : string -> string -> Z) (set_order : gset string -> list string)
    (indices : gmap string (gset string) * gmap string Channel * gmap (option string) Channel)
    (names : list string) (threshold : Z) (preserve_existing : bool)
    (progress_callback : bool) (i : nat) (m3u_channel : PlaylistEntry) : list event :=
  (if progress_callback then [ProgressCall (i + 1)%nat] else [])
    ++ [ResultAppended
          (entry_result fuzz_ratio set_order indices names threshold preserve_existing
             m3u_channel)].

(** The counts the progress callback was called with, in order. *)
Definition progress_counts (trace : list event) : list nat :=
  omap (fun ev => match ev with ProgressCall n => Some n | ResultAppended _ => None end) trace.

(** The order of events in which the callback is called after each entry
    is processed, with the count of entries processed so far. *)
Definition progress_after_each_entry (results : list MatchResult) : list event :=
  concat (imap (fun i r => [ResultAppended r; ProgressCall (S i)]) results).

(** The order of events in which the callback is called with the 1-based
    position of an entry before that entry is processed. *)
Definition progress_before_each_entry (results : list MatchResult) : list event :=
  concat (imap (fun i r => [ProgressCall (S i); ResultAppended r]) results).

(** ** Wanted channels of the guide generator *)

(** The identifier a match result asks for: the result is selected and is
    associated with a channel whose identifier is present and not empty. *)
Definition wanted_id (item : MatchResult) : option string :=
  if selected item then xmltv_match item ≫= (fun xmltv => truthy_id (ch_id xmltv)) else None.



(** ** Guide sources *)

(** A guide file, by its name: in lower case the name ends in .xml, .gz
    or .xmltv. *)
Definition guide_name (name : string) : Prop :=
  Exists (fun ext => chars ext `suffix_of` py_lower (chars name)) [".xml"; ".gz"; ".xmltv"].

#[local] Instance guide_name_dec (name : string) : Decision (guide_name name).
Proof. unfold guide_name. apply _. Defined.





(** A programme entry references a wanted channel: its channel attribute
    is a wanted identifier. *)
Definition references (wanted : gset string) (e : Element) : Prop :=
  match attrib_get "channel" (attrib e) with
  | Some c => c ∈ wanted
  | None => False
  end.

#[local] Instance references_dec (wanted : gset string) (e : Element) :
  Decision (references wanted e).
Proof. unfold references. destruct (attrib_get "channel" (attrib e)); apply _. Defined.


(** ** Results written by the playlist generator *)

(** A result is written when it is selected and associated. *)
Definition written (item : MatchResult) : Prop :=
  selected item = true /\ is_Some (xmltv_match item).

#[local] Instance written_dec (item : MatchResult) : Decision (written item).
Proof. unfold written. apply _. Defined.

(** ** Playlist files *)

(** A descriptor that fits on one line. *)
Definition descriptor_line (d : string) : Prop :=
  exists d', chars d = chars "#EXTINF:" ++ d' /\ newline ∉ d'.

(** The lines of a list of descriptor and URL pairs. *)
Definition pair_lines (pairs : list (string * string)) : list string :=
  flat_map (fun p => [p.1; p.2]) pairs.

(** A pair that a playlist file holds on two lines. *)
Definition line_pair (p : string * string) : Prop :=
  descriptor_line p.1 /\ newline ∉ chars p.2.

(** The text of lines, each followed by a newline. *)
Definition lines_text (lines : list string) : list ascii :=
  concat (map (fun line => chars line ++ [newline]) lines).


(** A text without line break: no newline and no carriage return. *)
Definition one_line (l : list ascii) : Prop := (newline ∉ l) /\ (cr ∉ l).

(** A result for which the generator writes two lines: its descriptor
    begins with #EXTINF:, and neither the descriptor, the URL, the
    channel's identifier nor its display name holds a line break. *)
Definition two_lines (item : MatchResult) : Prop :=
  is_Some (after_prefix (chars "#EXTINF:") (chars (pe_original_extinf (m3u_data item))))
  /\ one_line (chars (pe_original_extinf (m3u_data item)))
  /\ one_line (chars (pe_url (m3u_data item)))
  /\ forall xmltv, xmltv_match item = Some xmltv ->
       one_line (id_text (ch_id xmltv)) /\ one_line (chars (ch_display_name xmltv)).

(** ** Sample catalogs *)

(** A scorer that stands for [fuzz.ratio] in the examples: 100 on equal
    strings, otherwise ten points per character of the common prefix of
    the two strings, at most 90. *)
Fixpoint common_prefix_len (a b : list ascii) : nat :=
  match a, b with
  | x :: a', y :: b' => if decide (x = y) then S (common_prefix_len a' b') else 0%nat
  | _, _ => 0%nat
  end.

Definition sample_ratio (query choice : string) : Z :=
  if decide (query = choice) then 100
  else Z.min 90 (10 * Z.of_nat (common_prefix_len (chars query) (chars choice))).

Definition sample_element (id : string) : Element :=
  {| tag := "channel"; attrib := [("id", id)]; content := "" |}.

Definition sample_channel (id name : string) : Channel :=
  {| ch_id := Some id; ch_display_name := name; ch_all_display_names := [name];
     ch_element := sample_element id; ch_icon := None; ch_source_file := "guide.xml" |}.

Definition sample_entry (name tvg_id : string) : PlaylistEntry :=
  {| pe_name := name; pe_url := "http://example.org/stream";
     pe_original_extinf := "#EXTINF:-1," +:+ name;
     pe_tvg_id := tvg_id; pe_group_title := "Movies"; pe_tvg_logo := "";
     pe_source_file := "list.m3u" |}.

Definition ch_hbo : Channel := sample_channel "hbo.us" "HBO East HD".
Definition ch_fox : Channel := sample_channel "fox.us" "Fox News".
Definition sample_guide : list Channel := [ch_hbo; ch_fox].

Definition e_hbo : PlaylistEntry := sample_entry "HBO East" "".
Definition e_fox : PlaylistEntry := sample_entry "FOX NEWS!" "".
Definition e_kept : PlaylistEntry := sample_entry "Fox News" "hbo.us".
Definition sample_playlist : list PlaylistEntry := [e_hbo; e_fox; e_kept].

Definition r_hbo : MatchResult :=
  {| m3u_data := e_hbo; xmltv_match := Some ch_hbo; score := 80; selected := true |}.

(** An entry whose hint carries a leading space, and a guide with a channel
    stored under that very hint: the engine looks the stripped hint up,
    finds nothing, and associates the entry by name with another channel. *)
Definition ch_alpha : Channel := sample_channel " a" "Alpha".
Definition ch_beta : Channel := sample_channel "b" "Beta".
Definition e_spaced_hint : PlaylistEntry := sample_entry "Beta" " a".

(** A descriptor with a group attribute and no identifier attribute. *)
Definition e_news : PlaylistEntry :=
  {| pe_name := "Fox";
     pe_url := "http://example.org/fox";
     pe_original_extinf :=
       text (chars "#EXTINF:-1 group-title=" ++ quoted "News" ++ chars ",Fox");
     pe_tvg_id := ""; pe_group_title := "News"; pe_tvg_logo := "";
     pe_source_file := "list.m3u" |}.

Definition r_news (xmltv : Channel) : MatchResult :=
  {| m3u_data := e_news; xmltv_match := Some xmltv; score := 100; selected := true |}.

(** A display name with a comma: the text after the final comma of the
    generated descriptor is the end of the display name only. *)
Definition ch_fox_hd : Channel := sample_channel "fox.us" "Fox News, HD".

(** A guide folder of two sources and a file that is not a guide. *)
Definition sample_programme (channel title : string) : Element :=
  {| tag := "programme"; attrib := [("channel", channel)]; content := title |}.

Definition sample_folder : list SourceFile :=
  [ {| sf_name := "b.XML";
       sf_channels := Some [sample_channel "hbo.us" "HBO East HD";
                            sample_channel "cnn.us" "CNN"];
       sf_programmes := [sample_programme "cnn.us" "News";
                         sample_programme "hbo.us" "Film";
                         sample_programme "fox.us" "Talk"];
       sf_stream_end := ParseError |};
    {| sf_name := "notes.txt"; sf_channels := None;
       sf_programmes := [sample_programme "hbo.us" "Ignored"];
       sf_stream_end := EndOfFile |};
    {| sf_name := "a.xml.gz";
       sf_channels := Some [sample_channel "fox.us" "Fox News"];
       sf_programmes := [sample_programme "fox.us" "Late"];
       sf_stream_end := EndOfFile |} ].


(** A playlist file of two entries: the first descriptor has an identifier
    attribute and its URL line has spaces around the URL. *)
Definition sample_descriptor : string :=
  text (chars "#EXTINF:-1 tvg-id=" ++ quoted "hbo.us"
          ++ chars " group-title=" ++ quoted "Movies" ++ chars ",HBO East").

Definition sample_pairs : list (string * string) :=
  [(sample_descriptor, " http://example.org/hbo ");
   ("#EXTINF:-1,Fox", "http://example.org/fox")].

Definition sample_content : string := file_text ("#EXTM3U" :: pair_lines sample_pairs).

Definition e_parsed_hbo : PlaylistEntry :=
  {| pe_name := "HBO East"; pe_url := "http://example.org/hbo";
     pe_original_extinf := sample_descriptor;
     pe_tvg_id := "hbo.us"; pe_group_title := "Movies"; pe_tvg_logo := "";
     pe_source_file := "list.m3u" |}.

Definition e_parsed_fox : PlaylistEntry :=
  {| pe_name := "Fox"; pe_url := "http://example.org/fox";
     pe_original_extinf := "#EXTINF:-1,Fox";
     pe_tvg_id := ""; pe_group_title := ""; pe_tvg_logo := "";
     pe_source_file := "list.m3u" |}.

(** A result whose descriptor carries an old identifier. *)
Definition r_old_id : MatchResult :=
  {| m3u_data :=
       {| pe_name := "Fox"; pe_url := "http://example.org/fox";
          pe_original_extinf :=
            text (chars "#EXTINF:-1 tvg-id=" ++ quoted "old"
                    ++ chars " group-title=" ++ quoted "News" ++ chars ",Fox");
          pe_tvg_id := "old"; pe_group_title := "News"; pe_tvg_logo := "";
          pe_source_file := "list.m3u" |};
     xmltv_match := Some ch_fox; score := 100; selected := true |}.



(** * Properties *)

(** ** Strings *)

Lemma chars_text (l : list ascii) : chars (text l) = l.
Proof. apply list_ascii_of_string_of_list_ascii. Qed.

Lemma text_chars (s : string) : text (chars s) = s.
Proof. apply string_of_list_ascii_of_string. Qed.

Lemma chars_inj (s1 s2 : string) : chars s1 = chars s2 -> s1 = s2.
Proof. intros H. rewrite <- (text_chars s1), <- (text_chars s2). by rewrite H. Qed.

Lemma after_prefix_app (p r : list ascii) : after_prefix p (p ++ r) = Some r.
Proof.
  induction p as [|a p IH]; simpl; [by destruct r|]. by rewrite decide_True.
Qed.

Lemma after_prefix_Some (p l r : list ascii) : after_prefix p l = Some r -> l = p ++ r.
Proof.
  revert l. induction p as [|a p IH]; intros l; simpl.
  - destruct l; by intros [= ->].
  - destruct l as [|b l]; [done|]. case_decide; [|done]. subst b.
    intros ->%IH. done.
Qed.

Lemma chars_app (s1 s2 : string) : chars (s1 +:+ s2) = chars s1 ++ chars s2.
Proof.
  induction s1 as [|c s1 IH]; [done|].
  change (String c s1 +:+ s2) with (String c (s1 +:+ s2)).
  unfold chars in *. simpl. by rewrite IH.
Qed.

Ltac by_cases_on_char c :=
  destruct c as [[] [] [] [] [] [] [] []]; vm_compute; try reflexivity; try discriminate.

(** ** Name normaliser *)

Lemma lower_char_kept (c : ascii) : kept c = true -> lower_char c = c.
Proof. by_cases_on_char c. Qed.

Lemma kept_space : kept space = true.
Proof. reflexivity. Qed.

Lemma is_space_kept (c : ascii) : is_space c = true -> kept c = true.
Proof. unfold kept. intros ->. by rewrite orb_true_r. Qed.

Lemma rstrip_cons (c : ascii) (l : list ascii) :
  rstrip (c :: l) =
  match rstrip l with
  | [] => if is_space c then [] else [c]
  | _ => c :: rstrip l
  end.
Proof. reflexivity. Qed.

Lemma collapse_ws_single_spaced (b : bool) (l : list ascii) :
  single_spaced b (collapse_ws b l) = true.
Proof.
  revert b. induction l as [|c l IH]; intros b; [done|].
  simpl. destruct (is_space c) eqn:Hc.
  - destruct b; [apply IH|]. simpl. by rewrite IH.
  - simpl. rewrite Hc. apply IH.
Qed.

Lemma single_spaced_collapse_ws (b : bool) (l : list ascii) :
  single_spaced b l = true -> collapse_ws b l = l.
Proof.
  revert b. induction l as [|c l IH]; intros b; [done|].
  simpl. destruct (is_space c) eqn:Hc.
  - intros [[Hsp Hb%negb_true_iff]%andb_prop Hl]%andb_prop.
    apply bool_decide_eq_true in Hsp. subst b c. by rewrite IH.
  - intros Hl. by rewrite IH.
Qed.

Lemma single_spaced_weaken (b : bool) (l : list ascii) :
  single_spaced b l = true -> single_spaced false l = true.
Proof.
  destruct l as [|c l]; [done|]. simpl. destruct (is_space c); [|done].
  intros [[-> _]%andb_prop ->]%andb_prop. done.
Qed.

Lemma single_spaced_tail (b : bool) (c : ascii) (l : list ascii) :
  single_spaced b (c :: l) = true -> single_spaced false l = true.
Proof.
  simpl. destruct (is_space c).
  - intros [_ H]%andb_prop. by eapply single_spaced_weaken.
  - done.
Qed.

Lemma lstrip_single_spaced (b : bool) (l : list ascii) :
  single_spaced b l = true -> single_spaced false (lstrip l) = true.
Proof.
  revert b. induction l as [|c l IH]; intros b; [done|].
  intros H. simpl. destruct (is_space c) eqn:Hc.
  - simpl in H. rewrite Hc in H. apply andb_prop in H as [_ H]. by eapply IH.
  - simpl in *. by rewrite Hc in *.
Qed.

Lemma rstrip_single_spaced (b : bool) (l : list ascii) :
  single_spaced b l = true -> single_spaced b (rstrip l) = true.
Proof.
  revert b. induction l as [|c l IH]; intros b; [done|].
  intros H. rewrite rstrip_cons.
  destruct (rstrip l) as [|x t] eqn:Hr.
  - destruct (is_space c) eqn:Hc; [done|]. simpl. by rewrite Hc.
  - simpl in *. destruct (is_space c) eqn:Hc.
    + apply andb_prop in H as [-> H]. simpl. by apply (IH true).
    + by apply (IH false).
Qed.

Lemma lstrip_no_leading_space (l : list ascii) : no_leading_space (lstrip l).
Proof.
  induction l as [|c l IH]; [done|]. simpl.
  destruct (is_space c) eqn:Hc; [done|]. simpl. done.
Qed.

Lemma no_leading_space_lstrip (l : list ascii) : no_leading_space l -> lstrip l = l.
Proof. destruct l as [|c l]; [done|]. simpl. by intros ->. Qed.

Lemma rstrip_no_leading_space (l : list ascii) :
  no_leading_space l -> no_leading_space (rstrip l).
Proof.
  destruct l as [|c l]; [done|]. simpl. intros Hc.
  change (no_leading_space (rstrip (c :: l))). rewrite rstrip_cons.
  destruct (rstrip l); rewrite ?Hc; done.
Qed.

Lemma rstrip_idemp (l : list ascii) : rstrip (rstrip l) = rstrip l.
Proof.
  induction l as [|c l IH]; [done|].
  rewrite rstrip_cons. destruct (rstrip l) as [|x t] eqn:Hr.
  - destruct (is_space c) eqn:Hc; [done|]. rewrite rstrip_cons. simpl. by rewrite Hc.
  - rewrite rstrip_cons, IH. done.
Qed.

Lemma py_strip_idemp (l : list ascii) : py_strip (py_strip l) = py_strip l.
Proof.
  unfold py_strip.
  rewrite (no_leading_space_lstrip (rstrip (lstrip l))).
  - apply rstrip_idemp.
  - apply rstrip_no_leading_space, lstrip_no_leading_space.
Qed.

Lemma Forall_kept_collapse_ws (b : bool) (l : list ascii) :
  Forall (fun c => kept c = true) l ->
  Forall (fun c => kept c = true) (collapse_ws b l).
Proof.
  revert b. induction l as [|c l IH]; intros b; [done|].
  intros [Hc Hl]%Forall_cons. simpl.
  destruct (is_space c), b; auto using kept_space.
Qed.

Lemma Forall_lstrip (P : ascii -> Prop) (l : list ascii) :
  Forall P l -> Forall P (lstrip l).
Proof.
  induction 1 as [|c l Hc Hl IH]; [done|]. simpl.
  destruct (is_space c); auto.
Qed.

Lemma Forall_rstrip (P : ascii -> Prop) (l : list ascii) :
  Forall P l -> Forall P (rstrip l).
Proof.
  induction 1 as [|c l Hc Hl IH]; [done|]. rewrite rstrip_cons.
  destruct (rstrip l); [destruct (is_space c)|]; auto.
Qed.

Lemma py_lower_kept (l : list ascii) :
  Forall (fun c => kept c = true) l -> py_lower l = l.
Proof.
  unfold py_lower. induction 1 as [|c l Hc Hl IH]; [done|].
  simpl. by rewrite lower_char_kept, IH.
Qed.

Lemma filter_kept (l : list ascii) :
  Forall (fun c => kept c = true) l -> filter (fun c => kept c = true) l = l.
Proof.
  induction 1 as [|c l Hc Hl IH]; [done|].
  rewrite filter_cons_True by done. by rewrite IH.
Qed.

(** The shape of every normalised name: only kept characters, white space
    only as single spaces, none at either end. *)
Lemma normalize_chars_shape (l : list ascii) :
  let n := normalize_chars l in
  Forall (fun c => kept c = true) n /\ single_spaced false n = true /\ py_strip n = n.
Proof.
  unfold normalize_chars. cbv zeta. split_and!.
  - apply Forall_rstrip, Forall_lstrip, Forall_kept_collapse_ws.
    apply Forall_forall. by intros c [Hc _]%list_elem_of_filter.
  - apply rstrip_single_spaced. eapply lstrip_single_spaced.
    apply collapse_ws_single_spaced.
  - apply py_strip_idemp.
Qed.

Lemma normalize_chars_idemp (l : list ascii) :
  normalize_chars (normalize_chars l) = normalize_chars l.
Proof.
  destruct (normalize_chars_shape l) as (Hk & Hs & Hst).
  set (n := normalize_chars l) in *.
  unfold normalize_chars at 1. cbv zeta.
  rewrite py_lower_kept, filter_kept by done.
  by rewrite single_spaced_collapse_ws.
Qed.

(** C10. The name normaliser is a function of its argument alone and is
    idempotent: normalising a normalised name gives the same name. *)
Theorem normalize_name_idempotent (x : string) :
  normalize_name (normalize_name x) = normalize_name x.
Proof.
  unfold normalize_name. by rewrite chars_text, normalize_chars_idemp.
Qed.

(** The case- and punctuation-insensitivity example of the specification. *)
Example normalize_name_fox :
  normalize_name "Fox News, HD!" = normalize_name "FOX NEWS HD".
Proof. reflexivity. Qed.

(** ** Index builder *)

Section dict_of_list.
Context {K V : Type} `{Countable K}.
Variable key : V -> K.

Lemma dict_of_lookup_Some (l : list V) (k : K) (v : V) :
  dict_of key l !! k = Some v -> v ∈ l /\ key v = k.
Proof.
  unfold dict_of. induction l as [|x l IH] using rev_ind.
  - simpl. by rewrite lookup_empty.
  - rewrite foldl_snoc. destruct (decide (key x = k)) as [<-|Hne].
    + rewrite lookup_insert_eq. intros [= ->]. split; [set_solver|done].
    + rewrite lookup_insert_ne by done. intros [? ?]%IH. set_solver.
Qed.

Lemma dict_of_lookup_is_Some (l : list V) (v : V) :
  v ∈ l -> is_Some (dict_of key l !! key v).
Proof.
  unfold dict_of. induction l as [|x l IH] using rev_ind.
  - by intros ?%elem_of_nil.
  - rewrite foldl_snoc. intros [Hv| ->%list_elem_of_singleton]%elem_of_app.
    + destruct (decide (key x = key v)) as [->|Hne].
      * rewrite lookup_insert_eq. by eexists.
      * rewrite lookup_insert_ne by done. auto.
    + rewrite lookup_insert_eq. by eexists.
Qed.

Lemma dict_of_nil (k : K) : dict_of key [] !! k = None.
Proof. apply lookup_empty. Qed.
End dict_of_list.

Lemma build_xmltv_indices_eq (xmltv_channels : list Channel) :
  build_xmltv_indices xmltv_channels =
  (foldl index_channel_tokens ∅ xmltv_channels,
   dict_of (fun ch => normalize_name (ch_display_name ch)) xmltv_channels,
   dict_of ch_id xmltv_channels).
Proof. reflexivity. Qed.

Lemma names_of_token_add (t n : string) (ti : gmap string (gset string))
    (token x : string) :
  x ∈ names_of (token_add t n ti) token <-> x ∈ names_of ti token \/ (token = t /\ x = n).
Proof.
  unfold names_of, token_add. destruct (decide (t = token)) as [->|Hne].
  - rewrite lookup_insert_eq. simpl. set_solver.
  - rewrite lookup_insert_ne by done. naive_solver.
Qed.

Lemma long_token_ltb (token : string) :
  (1 <? String.length token)%nat = true <-> long_token token.
Proof. apply Nat.ltb_lt. Qed.

Lemma index_tokens_spec (name : string) (tokens : list string)
    (ti : gmap string (gset string)) (token x : string) :
  x ∈ names_of
        (foldl (fun ti token =>
                  if (1 <? String.length token)%nat then token_add token name ti else ti)
               ti tokens) token
  <-> x ∈ names_of ti token \/ (x = name /\ token ∈ tokens /\ long_token token).
Proof.
  revert ti. induction tokens as [|t tokens IH]; intros ti; simpl.
  - set_solver.
  - rewrite IH. destruct (1 <? String.length t)%nat eqn:Ht.
    + apply long_token_ltb in Ht. rewrite names_of_token_add.
      split; [intros [[?|[-> ->]]|(-> & ? & ?)]|intros [?|(-> & [->|?]%elem_of_cons & ?)]];
        set_solver.
    + assert (~ long_token t) by (intros ?%long_token_ltb; congruence).
      split; [intros [?|(-> & ? & ?)]|intros [?|(-> & [->|?]%elem_of_cons & ?)]];
        set_solver.
Qed.

(** The token index maps a token to the primary display names of the
    channels whose normalised name holds that token, for the tokens of
    more than one character. *)
Lemma token_index_spec (xmltv_channels : list Channel) (token x : string) :
  x ∈ names_of (foldl index_channel_tokens ∅ xmltv_channels) token
  <-> exists ch, ch ∈ xmltv_channels /\ ch_display_name ch = x
                 /\ token ∈ py_split (normalize_name x) /\ long_token token.
Proof.
  induction xmltv_channels as [|c l IH] using rev_ind.
  - simpl. unfold names_of. rewrite lookup_empty. simpl. set_solver.
  - rewrite foldl_snoc. unfold index_channel_tokens at 1.
    rewrite index_tokens_spec, IH. split.
    + intros [(ch & ? & ? & ? & ?)|(-> & ? & ?)].
      * exists ch. set_solver.
      * exists c. set_solver.
    + intros (ch & [?| ->%list_elem_of_singleton]%elem_of_app & <- & ? & ?).
      * left. by exists ch.
      * by right.
Qed.

Lemma foldl_candidates_spec (ti : gmap string (gset string)) (tokens : list string)
    (acc : gset string) (x : string) :
  x ∈ foldl (fun acc token =>
               if (1 <? String.length token)%nat
               then acc ∪ default ∅ (ti !! token) else acc) acc tokens
  <-> x ∈ acc \/ exists token, token ∈ tokens /\ long_token token /\ x ∈ names_of ti token.
Proof.
  revert acc. induction tokens as [|t tokens IH]; intros acc; simpl.
  - set_solver.
  - rewrite IH. destruct (1 <? String.length t)%nat eqn:Ht.
    + apply long_token_ltb in Ht. rewrite elem_of_union. fold (names_of ti t). split.
      * intros [[?|?]|(token & ? & ? & ?)]; [by left| |]; right;
          [exists t|exists token]; set_solver.
      * intros [?|(token & [->|?]%elem_of_cons & ? & ?)]; [by left; left|by left; right|].
        right. by exists token.
    + assert (~ long_token t) by (intros ?%long_token_ltb; congruence). split.
      * intros [?|(token & ? & ? & ?)]; [by left|]. right. exists token. set_solver.
      * intros [?|(token & [->|?]%elem_of_cons & ? & ?)]; [by left|done|].
        right. by exists token.
Qed.

(** ** Matching engine *)

Lemma foldl_best_elem (x : string * Z) (l : list (string * Z)) :
  foldl (fun best y => if best.2 <? y.2 then y else best) x l ∈ x :: l.
Proof.
  revert x. induction l as [|y l IH]; intros x; simpl; [set_solver|].
  destruct (x.2 <? y.2); specialize (IH y) as IHy; specialize (IH x); set_solver.
Qed.

Lemma py_max_score_elem (l : list (string * Z)) (x : string * Z) :
  py_max_score l = Some x -> x ∈ l.
Proof. destruct l as [|y l]; [done|]. intros [= <-]. apply foldl_best_elem. Qed.

Lemma py_max_score_is_Some (l : list (string * Z)) :
  l <> [] -> is_Some (py_max_score l).
Proof. destruct l; [done|]. by eexists. Qed.

Section MatcherProperties.

Variable fuzz_ratio : string -> string -> Z.
Variable set_order : gset string -> list string.

(** What the engine relies on from its collaborators: the scorer answers
    a ratio between 0 and 100, and listing a set gives each of its
    members once, in some order. *)
Hypothesis fuzz_ratio_range : forall query choice, 0 <= fuzz_ratio query choice <= 100.
Hypothesis set_order_perm : forall s, set_order s ≡ₚ elements s.

Lemma extractOne_Some (query : string) (choices : list string) (n : string) (s : Z) :
  extractOne fuzz_ratio query choices = Some (n, s) ->
  n ∈ choices /\ s = fuzz_ratio query n.
Proof.
  unfold extractOne, extractWithoutOrder.
  intros [_ Hin]%py_max_score_elem%list_elem_of_filter.
  apply list_elem_of_fmap in Hin as (c & [= -> ->] & Hc). done.
Qed.

Lemma extractOne_is_Some (query : string) (choices : list string) :
  choices <> [] -> is_Some (extractOne fuzz_ratio query choices).
Proof.
  intros Hne. apply py_max_score_is_Some. unfold extractWithoutOrder.
  destruct choices as [|c l]; [done|]. simpl.
  rewrite filter_cons_True; [done|]. simpl. apply fuzz_ratio_range.
Qed.

Lemma set_order_elem (s : gset string) (x : string) : x ∈ set_order s <-> x ∈ s.
Proof using set_order_perm. by rewrite set_order_perm, elem_of_elements. Qed.

Lemma set_order_nil (s : gset string) : set_order s = [] -> s = ∅.
Proof using set_order_perm.
  intros Hnil. apply set_eq. intros x. rewrite <- set_order_elem, Hnil.
  split; [by intros ?%elem_of_nil|by intros ?%elem_of_empty].
Qed.

Lemma match_loop_spec indices names threshold preserve cb
    (l : list PlaylistEntry) (k : nat) (acc : list MatchResult) (tr : list event) :
  foldl (match_step fuzz_ratio set_order indices names threshold preserve cb)
        (acc, tr) (imap (fun i x => ((k + i)%nat, x)) l) =
  (acc ++ map (entry_result fuzz_ratio set_order indices names threshold preserve) l,
   tr ++ concat (imap (fun i e =>
                         entry_events fuzz_ratio set_order indices names threshold preserve cb (k + i) e) l)).
Proof.
  revert k acc tr. induction l as [|e l IH]; intros k acc tr.
  - simpl. by rewrite !app_nil_r.
  - rewrite !imap_cons. simpl foldl.
    rewrite (imap_ext _ (fun i x => ((S k + i)%nat, x))); last first.
    { intros i x _. simpl. f_equal. lia. }
    rewrite IH. simpl concat.
    rewrite (imap_ext (_ ∘ S) (fun i x =>
               entry_events fuzz_ratio set_order indices names threshold preserve cb (S k + i) x)); last first.
    { intros i x _. simpl. f_equal. lia. }
    unfold entry_events at 2, entry_result at 2.
    rewrite Nat.add_0_r. simpl map.
    destruct cb; simpl; by rewrite <- !app_assoc.
Qed.

Lemma auto_match_channels_traced_spec m3u_channels xmltv_channels threshold preserve cb :
  xmltv_channels <> [] ->
  auto_match_channels_traced fuzz_ratio set_order m3u_channels xmltv_channels
    threshold preserve cb =
  (map (entry_result fuzz_ratio set_order (build_xmltv_indices xmltv_channels)
          (map ch_display_name xmltv_channels) threshold preserve) m3u_channels,
   concat (imap (entry_events fuzz_ratio set_order (build_xmltv_indices xmltv_channels)
                   (map ch_display_name xmltv_channels) threshold preserve cb)
                m3u_channels)).
Proof.
  intros Hne. unfold auto_match_channels_traced.
  destruct xmltv_channels as [|c chs]; [done|].
  unfold enumerate. apply (match_loop_spec _ _ _ _ _ m3u_channels 0 [] []).
Qed.

Lemma auto_match_channels_spec m3u_channels xmltv_channels threshold preserve cb :
  xmltv_channels <> [] ->
  auto_match_channels fuzz_ratio set_order m3u_channels xmltv_channels
    threshold preserve cb =
  map (entry_result fuzz_ratio set_order (build_xmltv_indices xmltv_channels)
         (map ch_display_name xmltv_channels) threshold preserve) m3u_channels.
Proof.
  intros Hne. unfold auto_match_channels.
  by rewrite auto_match_channels_traced_spec.
Qed.

(** Every member of the candidate pool is the primary display name of a
    guide channel, and the pool of a guide that is not empty is not
    empty. *)
Lemma candidate_names_spec (xmltv_channels : list Channel) (normalized x : string) :
  x ∈ candidate_names (token_index_of xmltv_channels) normalized
  <-> exists token, token ∈ py_split normalized /\ long_token token
                    /\ x ∈ names_of (token_index_of xmltv_channels) token.
Proof using Type.
  unfold candidate_names. rewrite foldl_candidates_spec.
  split; [intros [[]%elem_of_empty|H]|intros H]; [done|by right].
Qed.

Lemma fuzzy_choices_names (xmltv_channels : list Channel) (normalized n : string) :
  n ∈ fuzzy_choices set_order (token_index_of xmltv_channels)
        (map ch_display_name xmltv_channels) normalized ->
  exists ch, ch ∈ xmltv_channels /\ ch_display_name ch = n.
Proof using set_order_perm.
  unfold fuzzy_choices. case_decide as Hc.
  - intros (ch & -> & Hch)%list_elem_of_fmap. by exists ch.
  - intros (token & _ & _ & Hn)%set_order_elem%candidate_names_spec.
    apply token_index_spec in Hn as (ch & ? & ? & _). by exists ch.
Qed.

Lemma fuzzy_choices_nonempty (xmltv_channels : list Channel) (normalized : string) :
  xmltv_channels <> [] ->
  fuzzy_choices set_order (token_index_of xmltv_channels)
    (map ch_display_name xmltv_channels) normalized <> [].
Proof using set_order_perm.
  intros Hne. unfold fuzzy_choices. case_decide as Hc.
  - by destruct xmltv_channels.
  - by intros ?%set_order_nil.
Qed.

Lemma id_rule_applies_true (by_id : gmap (option string) Channel)
    (preserve : bool) (e : PlaylistEntry) :
  id_rule_applies by_id preserve e = true <->
  preserve = true /\ strip (pe_tvg_id e) <> ""
  /\ is_Some (by_id !! Some (strip (pe_tvg_id e))).
Proof.
  unfold id_rule_applies. rewrite !andb_true_iff, negb_true_iff, bool_decide_eq_true.
  rewrite String.eqb_neq. tauto.
Qed.

(** What [match_entry] answers for a guide that is not empty: always an
    association, and a score between 0 and 100. *)
Lemma match_entry_sound (xmltv_channels : list Channel) (preserve : bool)
    (e : PlaylistEntry) :
  xmltv_channels <> [] ->
  let m := match_entry fuzz_ratio set_order (build_xmltv_indices xmltv_channels)
             (map ch_display_name xmltv_channels) preserve e in
  is_Some m.1 /\ 0 <= m.2 <= 100.
Proof.
  intros Hne. unfold match_entry. rewrite build_xmltv_indices_eq.
  fold (token_index_of xmltv_channels).
  destruct (id_rule_applies _ preserve e) eqn:Hid.
  { apply id_rule_applies_true in Hid as (_ & _ & Hsome). simpl. split; [done|lia]. }
  destruct (dict_of _ xmltv_channels !! normalize_name (pe_name e)) as [ch|] eqn:Hname.
  { simpl. split; [by eexists|lia]. }
  pose proof (fuzzy_choices_nonempty xmltv_channels (normalize_name (pe_name e)) Hne) as Hch.
  destruct (fuzzy_choices _ _ _ _) as [|c l] eqn:Hchoices; [done|].
  destruct (extractOne_is_Some (pe_name e) (c :: l)) as [[n s] Hone]; [done|].
  rewrite Hone. simpl.
  apply extractOne_Some in Hone as [Hn ->]. split; [|apply fuzz_ratio_range].
  rewrite <- Hchoices in Hn. apply fuzzy_choices_names in Hn as (ch & Hin & <-).
  by apply (dict_of_lookup_is_Some (fun ch => normalize_name (ch_display_name ch))).
Qed.

Lemma channels_by_id_of_nonempty (xmltv_channels : list Channel) k ch :
  channels_by_id_of xmltv_channels !! k = Some ch -> xmltv_channels <> [].
Proof. by intros H ->. Qed.

Lemma channels_by_display_name_of_nonempty (xmltv_channels : list Channel) k ch :
  channels_by_display_name_of xmltv_channels !! k = Some ch -> xmltv_channels <> [].
Proof. by intros H ->. Qed.

(** C1, as amended.  With "prefer identifier continuity" set, an entry
    whose identifier hint, once stripped of surrounding white space, is
    not empty and is a key of the identifier index is associated with
    exactly the channel stored under that stripped hint, with score 100,
    whatever its name and whatever the names of the other channels. *)
Theorem identifier_continuity_priority
    (m3u_channels : list PlaylistEntry) (xmltv_channels : list Channel)
    (threshold : Z) (progress_callback : bool)
    (i : nat) (e : PlaylistEntry) (ch : Channel) :
  m3u_channels !! i = Some e ->
  strip (pe_tvg_id e) <> "" ->
  channels_by_id_of xmltv_channels !! Some (strip (pe_tvg_id e)) = Some ch ->
  auto_match_channels fuzz_ratio set_order m3u_channels xmltv_channels
    threshold true progress_callback !! i =
  Some {| m3u_data := e; xmltv_match := Some ch; score := 100;
          selected := bool_decide (threshold <= 100) |}.
Proof.
  intros He Hid Hch.
  rewrite auto_match_channels_spec by by eapply channels_by_id_of_nonempty.
  rewrite list_lookup_fmap, He. simpl. f_equal.
  unfold entry_result, match_entry. rewrite build_xmltv_indices_eq.
  assert (id_rule_applies (dict_of ch_id xmltv_channels) true e = true) as ->.
  { apply id_rule_applies_true. split_and!; [done..|]. by eexists. }
  unfold channels_by_id_of in Hch. rewrite build_xmltv_indices_eq in Hch.
  simpl in Hch. by rewrite Hch.
Qed.

(** C2, as amended.  Matching against an empty guide catalog returns the
    empty result list, whatever the playlist catalog: no result is
    produced for any entry. *)
Theorem empty_guide_gives_no_results
    (m3u_channels : list PlaylistEntry) (threshold : Z)
    (preserve_existing progress_callback : bool) :
  auto_match_channels fuzz_ratio set_order m3u_channels []
    threshold preserve_existing progress_callback = [].
Proof. reflexivity. Qed.

(** C3.  An entry to which the identifier-continuity rule does not apply
    and whose normalised display name is a key of the normalised-name
    index is associated with the channel stored under that key, with
    score exactly 100. *)
Theorem exact_name_priority
    (m3u_channels : list PlaylistEntry) (xmltv_channels : list Channel)
    (threshold : Z) (preserve_existing progress_callback : bool)
    (i : nat) (e : PlaylistEntry) (ch : Channel) :
  m3u_channels !! i = Some e ->
  id_rule_applies (channels_by_id_of xmltv_channels) preserve_existing e = false ->
  channels_by_display_name_of xmltv_channels !! normalize_name (pe_name e) = Some ch ->
  auto_match_channels fuzz_ratio set_order m3u_channels xmltv_channels
    threshold preserve_existing progress_callback !! i =
  Some {| m3u_data := e; xmltv_match := Some ch; score := 100;
          selected := bool_decide (threshold <= 100) |}.
Proof.
  intros He Hid Hch.
  rewrite auto_match_channels_spec by by eapply channels_by_display_name_of_nonempty.
  rewrite list_lookup_fmap, He. simpl. f_equal.
  unfold entry_result, match_entry. rewrite build_xmltv_indices_eq.
  unfold channels_by_id_of, channels_by_display_name_of in Hid, Hch.
  rewrite build_xmltv_indices_eq in Hid, Hch. simpl in Hid, Hch.
  by rewrite Hid, Hch.
Qed.

(** C4.  Every result produced by the matching engine has a score
    between 0 and 100, and its selected flag is the outcome of the test
    score >= threshold. *)
Theorem score_bounds_and_selection
    (m3u_channels : list PlaylistEntry) (xmltv_channels : list Channel)
    (threshold : Z) (preserve_existing progress_callback : bool) (r : MatchResult) :
  r ∈ auto_match_channels fuzz_ratio set_order m3u_channels xmltv_channels
        threshold preserve_existing progress_callback ->
  0 <= score r <= 100 /\ selected r = bool_decide (threshold <= score r).
Proof.
  destruct (decide (xmltv_channels = [])) as [->|Hne].
  { by intros ?%elem_of_nil. }
  rewrite auto_match_channels_spec by done.
  intros (e & -> & _)%list_elem_of_fmap.
  unfold entry_result, make_result. simpl. split; [|done].
  by apply (match_entry_sound xmltv_channels preserve_existing e).
Qed.

(** C9.  When the guide catalog is not empty, the result produced for
    every playlist entry carries an association, whatever its score. *)
Theorem association_never_absent
    (m3u_channels : list PlaylistEntry) (xmltv_channels : list Channel)
    (threshold : Z) (preserve_existing progress_callback : bool)
    (i : nat) (e : PlaylistEntry) :
  xmltv_channels <> [] ->
  m3u_channels !! i = Some e ->
  exists r,
    auto_match_channels fuzz_ratio set_order m3u_channels xmltv_channels
      threshold preserve_existing progress_callback !! i = Some r
    /\ m3u_data r = e /\ is_Some (xmltv_match r).
Proof.
  intros Hne He. rewrite auto_match_channels_spec by done.
  rewrite list_lookup_fmap, He. simpl. eexists. split; [done|]. split; [done|].
  unfold entry_result, make_result. simpl.
  by apply (match_entry_sound xmltv_channels preserve_existing e).
Qed.

Lemma progress_counts_events indices names threshold preserve
    (l : list PlaylistEntry) (k : nat) :
  progress_counts
    (concat (imap (fun i e => entry_events fuzz_ratio set_order indices names threshold preserve true (k + i) e) l))
  = seq (k + 1) (length l).
Proof.
  revert k. induction l as [|e l IH]; intros k; [done|].
  rewrite imap_cons. simpl concat.
  rewrite (imap_ext _ (fun i x =>
             entry_events fuzz_ratio set_order indices names threshold preserve true (S k + i) x)); last first.
  { intros i x _. simpl. f_equal. lia. }
  specialize (IH (S k)). revert IH. unfold progress_counts.
  generalize (concat (imap (fun i x =>
    entry_events fuzz_ratio set_order indices names threshold preserve true (S k + i) x) l)).
  intros rest IH. simpl. f_equal; [lia|]. etrans; [exact IH|]. f_equal; lia.
Qed.

(** C8, as amended.  For a guide catalog that is not empty, a supplied
    progress callback is called exactly once per playlist entry, in input
    order, with the 1-based position of the entry, whichever rule decides
    the entry; each call comes before the entry is processed, not after. *)
Theorem progress_callback_once_per_entry
    (m3u_channels : list PlaylistEntry) (xmltv_channels : list Channel)
    (threshold : Z) (preserve_existing : bool) :
  xmltv_channels <> [] ->
  let run := auto_match_channels_traced fuzz_ratio set_order m3u_channels
               xmltv_channels threshold preserve_existing true in
  run.2 = progress_before_each_entry run.1
  /\ progress_counts run.2 = seq 1 (length m3u_channels)
  /\ length run.1 = length m3u_channels.
Proof.
  intros Hne run. subst run. rewrite auto_match_channels_traced_spec by done.
  simpl. split_and!.
  - unfold progress_before_each_entry. rewrite imap_fmap. f_equal.
    apply imap_ext. intros i e _. unfold entry_events. simpl.
    by rewrite Nat.add_1_r.
  - apply (progress_counts_events _ _ _ _ m3u_channels 0).
  - by rewrite length_map.
Qed.

(** C5.  For an entry that reaches the fuzzy rule, the engine searches
    the candidate pool; the union behind the pool is the union of the
    token-index sets of the tokens of more than one character of the
    entry's normalised name, each such set holding the primary display
    names of the channels whose normalised name has that token; when the
    union is not empty the pool has exactly its members, otherwise the
    pool is the list of the primary display names of all guide
    channels. *)
Theorem fuzzy_candidate_pool
    (xmltv_channels : list Channel) (preserve_existing : bool) (e : PlaylistEntry) :
  id_rule_applies (channels_by_id_of xmltv_channels) preserve_existing e = false ->
  channels_by_display_name_of xmltv_channels !! normalize_name (pe_name e) = None ->
  let normalized := normalize_name (pe_name e) in
  let union := candidate_names (token_index_of xmltv_channels) normalized in
  let pool := fuzzy_choices set_order (token_index_of xmltv_channels)
                (map ch_display_name xmltv_channels) normalized in
  match_entry fuzz_ratio set_order (build_xmltv_indices xmltv_channels)
    (map ch_display_name xmltv_channels) preserve_existing e =
    match pool with
    | [] => (None, 0)
    | _ :: _ =>
        match extractOne fuzz_ratio (pe_name e) pool with
        | Some (matched_name, match_score) =>
            (channels_by_display_name_of xmltv_channels !! normalize_name matched_name,
             match_score)
        | None => (None, 0)
        end
    end
  /\ (forall x, x ∈ union <->
        exists token, token ∈ py_split normalized /\ long_token token
                      /\ x ∈ names_of (token_index_of xmltv_channels) token)
  /\ (forall token x, x ∈ names_of (token_index_of xmltv_channels) token <->
        exists ch, ch ∈ xmltv_channels /\ ch_display_name ch = x
                   /\ token ∈ py_split (normalize_name x) /\ long_token token)
  /\ (union <> ∅ -> forall x, x ∈ pool <-> x ∈ union)
  /\ (union = ∅ -> pool = map ch_display_name xmltv_channels).
Proof using set_order_perm.
  intros Hid Hname normalized union pool. split_and!.
  - unfold match_entry. rewrite build_xmltv_indices_eq.
    unfold channels_by_id_of, channels_by_display_name_of in Hid, Hname |- *.
    rewrite build_xmltv_indices_eq in Hid, Hname |- *. simpl in Hid, Hname. simpl.
    by rewrite Hid, Hname.
  - apply candidate_names_spec.
  - intros token x. apply token_index_spec.
  - intros Hu x. subst pool. unfold fuzzy_choices. fold normalized. fold union.
    case_decide; [done|]. apply set_order_elem.
  - intros Hu. subst pool. unfold fuzzy_choices. fold normalized. fold union.
    by case_decide.
Qed.

End MatcherProperties.

Lemma sample_ratio_range (query choice : string) : 0 <= sample_ratio query choice <= 100.
Proof. unfold sample_ratio. case_decide; lia. Qed.

Lemma elements_perm (s : gset string) : elements s ≡ₚ elements s.
Proof. reflexivity. Qed.

(** The scenario of the specification in which the identifier hint wins
    over an exact name match with another channel. *)
Example sample_match :
  map (fun r => (ch_id <$> xmltv_match r, score r, selected r))
      (auto_match_channels sample_ratio elements sample_playlist sample_guide 70 true true)
  = [(Some (Some "hbo.us"), 80, true);
     (Some (Some "fox.us"), 100, true);
     (Some (Some "hbo.us"), 100, true)].
Proof. vm_compute. reflexivity. Qed.

(** ** The claims on the sample catalogs *)

(** The third sample entry keeps the channel of its identifier hint. *)
Lemma identifier_continuity_priority_witness :
  auto_match_channels sample_ratio elements sample_playlist sample_guide 70 true true
    !! 2%nat =
  Some {| m3u_data := e_kept; xmltv_match := Some ch_hbo; score := 100;
          selected := bool_decide (70 <= 100) |}.
Proof.
  apply (identifier_continuity_priority sample_ratio elements sample_playlist
           sample_guide 70 true 2 e_kept ch_hbo).
  - reflexivity.
  - vm_compute. discriminate.
  - vm_compute. reflexivity.
Defined.

Lemma identifier_hint_not_stripped_counterexample :
  pe_tvg_id e_spaced_hint <> ""
  /\ channels_by_id_of [ch_alpha; ch_beta] !! Some (pe_tvg_id e_spaced_hint) = Some ch_alpha
  /\ exists r,
       auto_match_channels sample_ratio elements [e_spaced_hint] [ch_alpha; ch_beta]
         70 true true !! 0%nat = Some r
       /\ xmltv_match r <> Some ch_alpha.
Proof.
  split; [vm_compute; discriminate|]. split; [vm_compute; reflexivity|].
  eexists. split; [vm_compute; reflexivity|]. vm_compute. discriminate.
Qed.

(** With an empty guide the result list of a playlist of one entry is
    empty: it does not have the length of the playlist. *)
Lemma empty_guide_length_counterexample :
  ~ (length (auto_match_channels sample_ratio elements [e_hbo] [] 70 true true)
       = length [e_hbo]
     /\ Forall (fun r => xmltv_match r = None /\ score r = 0)
          (auto_match_channels sample_ratio elements [e_hbo] [] 70 true true)).
Proof. intros [Hlen _]. vm_compute in Hlen. discriminate. Qed.

Lemma exact_name_priority_witness :
  auto_match_channels sample_ratio elements sample_playlist sample_guide 70 true true
    !! 1%nat =
  Some {| m3u_data := e_fox; xmltv_match := Some ch_fox; score := 100;
          selected := bool_decide (70 <= 100) |}.
Proof.
  apply (exact_name_priority sample_ratio elements sample_playlist sample_guide
           70 true true 1 e_fox ch_fox).
  - reflexivity.
  - vm_compute. reflexivity.
  - vm_compute. reflexivity.
Defined.

Lemma score_bounds_and_selection_witness :
  0 <= score r_hbo <= 100 /\ selected r_hbo = bool_decide (70 <= score r_hbo).
Proof.
  apply (score_bounds_and_selection sample_ratio elements sample_ratio_range
           elements_perm sample_playlist sample_guide 70 true true r_hbo).
  vm_compute. apply list_elem_of_here.
Defined.

Lemma association_never_absent_witness :
  exists r,
    auto_match_channels sample_ratio elements sample_playlist sample_guide 0 false false
      !! 0%nat = Some r
    /\ m3u_data r = e_hbo /\ is_Some (xmltv_match r).
Proof.
  apply (association_never_absent sample_ratio elements sample_ratio_range
           elements_perm sample_playlist sample_guide 0 false false 0 e_hbo).
  - discriminate.
  - reflexivity.
Defined.

Lemma progress_callback_once_per_entry_witness :
  let run := auto_match_channels_traced sample_ratio elements sample_playlist
               sample_guide 70 true true in
  run.2 = progress_before_each_entry run.1
  /\ progress_counts run.2 = seq 1 (length sample_playlist)
  /\ length run.1 = length sample_playlist.
Proof.
  apply (progress_callback_once_per_entry sample_ratio elements sample_playlist
           sample_guide 70 true).
  discriminate.
Defined.

(** The callback is called with count 1 before the result of the first
    entry is appended, not after. *)
Lemma progress_callback_after_entry_counterexample :
  let run := auto_match_channels_traced sample_ratio elements [e_hbo] sample_guide
               70 true true in
  run.2 = [ProgressCall 1; ResultAppended r_hbo]
  /\ run.2 <> progress_after_each_entry run.1.
Proof.
  split; [vm_compute; reflexivity|]. vm_compute. discriminate.
Qed.

Lemma fuzzy_candidate_pool_witness :
  let normalized := normalize_name (pe_name e_hbo) in
  let union := candidate_names (token_index_of sample_guide) normalized in
  let pool := fuzzy_choices elements (token_index_of sample_guide)
                (map ch_display_name sample_guide) normalized in
  union = {[ "HBO East HD" ]} /\ pool = ["HBO East HD"]
  /\ (forall x, x ∈ pool <-> x ∈ union).
Proof.
  intros normalized union pool.
  split; [vm_compute; reflexivity|]. split; [vm_compute; reflexivity|].
  assert (Hne : union <> ∅) by (vm_compute; discriminate).
  exact (proj1 (proj2 (proj2 (proj2
    (fuzzy_candidate_pool sample_ratio elements elements_perm sample_guide true e_hbo
       ltac:(vm_compute; reflexivity) ltac:(vm_compute; reflexivity))))) Hne).
Defined.

(** ** Guide generator *)

Lemma collect_step_wanted (full : gmap string Element)
    (st : gset string * gmap string Element) (item : MatchResult) :
  collect_step full st item =
  match wanted_id item with
  | Some channel_id =>
      (st.1 ∪ {[channel_id]},
       match full !! channel_id, st.2 !! channel_id with
       | Some e, None => <[channel_id := e]> st.2
       | _, _ => st.2
       end)
  | None => st
  end.
Proof.
  destruct st as [ids to_write]. unfold collect_step, wanted_id.
  destruct (selected item); [|done].
  destruct (xmltv_match item) as [xmltv|]; [|done]. simpl.
  by destruct (truthy_id (ch_id xmltv)).
Qed.
























Example sample_generate_xmltv :
  generate_xmltv
    (auto_match_channels sample_ratio elements sample_playlist sample_guide 70 true true)
    sample_folder =
  (Complete {| doc_generator := "M3U-XMLTV Matcher";
               doc_channels := [sample_element "fox.us"; sample_element "hbo.us"];
               doc_programmes := [sample_programme "hbo.us" "Film";
                                  sample_programme "fox.us" "Talk";
                                  sample_programme "fox.us" "Late"] |},
   (2%nat, 3%nat)).
Proof. vm_compute. reflexivity. Qed.



(** ** Playlist generator *)

#[local] Arguments after_prefix : simpl never.
#[local] Arguments match_tvg_id : simpl never.
#[local] Arguments match_extinf : simpl never.

Lemma quoted_body_len_Some (l : list ascii) (n : nat) :
  quoted_body_len l = Some n ->
  exists body rest, l = body ++ dquote :: rest /\ (dquote ∉ body) /\ n = length body.
Proof.
  revert n. induction l as [|c l IH]; intros n; simpl; [done|].
  case_decide as Hc.
  - intros [= <-]. exists (@nil ascii), l. subst c.
    split_and!; [done| |done]. by intros ?%elem_of_nil.
  - destruct (quoted_body_len l) as [m|]; [|done]. simpl. intros [= <-].
    destruct (IH m eq_refl) as (body & rest & -> & Hb & ->).
    exists (c :: body), rest. split_and!; [done| |done].
    intros [?|?]%elem_of_cons; congruence.
Qed.

Lemma quoted_body_len_body (body rest : list ascii) :
  dquote ∉ body -> quoted_body_len (body ++ dquote :: rest) = Some (length body).
Proof.
  induction body as [|c body IH]; intros Hb.
  - simpl. by destruct (decide (dquote = dquote)).
  - cbn [quoted_body_len app]. destruct (decide (c = dquote)) as [->|_].
    + exfalso. apply Hb. left.
    + rewrite IH; [done|]. intros ?. apply Hb. by right.
Qed.

Lemma quoted_body_len_is_Some (a rest : list ascii) :
  is_Some (quoted_body_len (a ++ dquote :: rest)).
Proof.
  induction a as [|c a IH].
  - simpl. destruct (decide (dquote = dquote)); [by eexists|done].
  - cbn [quoted_body_len app]. destruct (decide (c = dquote)); [by eexists|].
    destruct IH as [m ->]. by eexists.
Qed.

Lemma match_tvg_id_Some (l : list ascii) (n : nat) :
  match_tvg_id l = Some n ->
  exists body rest,
    l = tvg_id_open ++ body ++ dquote :: rest /\ (dquote ∉ body)
    /\ n = (length tvg_id_open + length body + 1)%nat.
Proof.
  unfold match_tvg_id.
  destruct (after_prefix tvg_id_open l) as [r|] eqn:Hp; [|done]. simpl.
  destruct (quoted_body_len r) as [m|] eqn:Hq; [|done]. simpl. intros [= <-].
  apply after_prefix_Some in Hp as ->.
  apply quoted_body_len_Some in Hq as (body & rest & -> & Hb & ->). eauto.
Qed.

Lemma match_tvg_id_attr (body rest : list ascii) :
  dquote ∉ body ->
  match_tvg_id (tvg_id_open ++ body ++ dquote :: rest)
  = Some (length tvg_id_open + length body + 1)%nat.
Proof.
  intros Hb. unfold match_tvg_id. rewrite after_prefix_app. simpl.
  by rewrite quoted_body_len_body.
Qed.

Lemma match_tvg_id_is_Some (a rest : list ascii) :
  is_Some (match_tvg_id (tvg_id_open ++ a ++ dquote :: rest)).
Proof.
  unfold match_tvg_id. rewrite after_prefix_app. simpl.
  destruct (quoted_body_len_is_Some a rest) as [n ->]. by eexists.
Qed.

Lemma match_tvg_id_head (c : ascii) (l : list ascii) :
  is_Some (match_tvg_id (c :: l)) -> c = "t"%char.
Proof.
  intros [n (body & rest & Heq & _)%match_tvg_id_Some]. by injection Heq.
Qed.

Lemma has_tvg_id_suffix (a b : list ascii) :
  has_tvg_id (a ++ b) = false -> has_tvg_id b = false.
Proof.
  induction a as [|c a IH]; simpl; [done|]. intros [_ H]%orb_false_elim. auto.
Qed.

Lemma has_tvg_id_head (l : list ascii) : has_tvg_id l = false -> match_tvg_id l = None.
Proof.
  destruct l as [|c l]; [done|]. simpl.
  intros [H%bool_decide_eq_false _]%orb_false_elim.
  destruct (match_tvg_id (c :: l)); [|done]. exfalso. apply H. by eexists.
Qed.

Lemma re_sub_tvg_id_none (repl l : list ascii) :
  has_tvg_id l = false -> re_sub_tvg_id repl 0 l = l.
Proof.
  induction l as [|c l IH]; [done|]. intros H.
  simpl. rewrite (has_tvg_id_head _ H).
  simpl in H. apply orb_false_elim in H as [_ H]. by rewrite IH.
Qed.

Lemma findall_tvg_id_none (l : list ascii) :
  has_tvg_id l = false -> findall_tvg_id 0 l = [].
Proof.
  induction l as [|c l IH]; [done|]. intros H.
  simpl. rewrite (has_tvg_id_head _ H).
  simpl in H. apply orb_false_elim in H as [_ H]. by apply IH.
Qed.

Lemma contains_tvg_id_attr (ident l : list ascii) :
  has_tvg_id l = false -> contains (tvg_id_attr ident) l = false.
Proof.
  induction l as [|c l IH]; intros H.
  - reflexivity.
  - simpl. pose proof (has_tvg_id_head _ H) as Hm.
    simpl in H. apply orb_false_elim in H as [_ H]. rewrite IH by done.
    rewrite orb_false_r. apply bool_decide_eq_false. intros [r Hr].
    apply after_prefix_Some in Hr. unfold tvg_id_attr in Hr.
    rewrite <- !app_assoc in Hr. simpl in Hr.
    destruct (match_tvg_id_is_Some ident r) as [n Hn].
    change (tvg_id_open ++ ident ++ dquote :: r)
      with (chars "tvg-id=" ++ [dquote] ++ ident ++ dquote :: r) in Hn.
    simpl in Hn. rewrite <- Hr in Hn. congruence.
Qed.

Lemma count_digits_app (digits rest : list ascii) :
  Forall (fun c => is_digit c = true) digits ->
  starts_with_digit rest = false ->
  count_digits (digits ++ rest) = length digits.
Proof.
  intros Hd Hr. induction Hd as [|c digits Hc _ IH].
  - destruct rest as [|c rest]; [done|].
    cbn [starts_with_digit] in Hr. cbn [app count_digits]. by rewrite Hr.
  - cbn [app count_digits length]. by rewrite Hc, IH.
Qed.

Lemma match_extinf_field (sign digits rest : list ascii) :
  sign = [] \/ sign = [minus] ->
  digits <> [] ->
  Forall (fun c => is_digit c = true) digits ->
  starts_with_digit rest = false ->
  match_extinf (extinf_field sign digits ++ rest)
  = Some (length (extinf_field sign digits)).
Proof.
  intros Hsign Hne Hd Hr. unfold match_extinf, extinf_field.
  rewrite <- !app_assoc, after_prefix_app. cbn [mbind option_bind].
  pose proof (count_digits_app digits rest Hd Hr) as Hcount.
  destruct digits as [|d ds]; [done|]. apply Forall_cons in Hd as [Hdig _].
  rewrite !length_app. cbn [app] in Hcount. destruct Hsign as [-> | ->].
  - cbn [app]. destruct (decide (d = minus)) as [->|_]; [done|].
    rewrite Hcount. simpl. f_equal.
  - cbn [app]. destruct (decide (minus = minus)); [|done].
    rewrite Hcount. simpl. f_equal.
Qed.

Lemma re_sub_extinf_first_head (ins l : list ascii) (n : nat) :
  match_extinf l = Some n ->
  re_sub_extinf_first ins l = take n l ++ ins ++ drop n l.
Proof. destruct l as [|c l]; [done|]. simpl. by intros ->. Qed.

Lemma re_sub_extinf_first_field (ins sign digits rest : list ascii) :
  sign = [] \/ sign = [minus] ->
  digits <> [] ->
  Forall (fun c => is_digit c = true) digits ->
  starts_with_digit rest = false ->
  re_sub_extinf_first ins (extinf_field sign digits ++ rest)
  = extinf_field sign digits ++ ins ++ rest.
Proof.
  intros Hsign Hne Hd Hr.
  rewrite (re_sub_extinf_first_head _ _ _ (match_extinf_field _ _ _ Hsign Hne Hd Hr)).
  by rewrite take_app_length, drop_app_length.
Qed.

Lemma rfind_None (c : ascii) (l : list ascii) : c ∉ l -> rfind c l = None.
Proof.
  induction l as [|x l IH]; [done|]. intros [Hx Hl]%not_elem_of_cons.
  simpl. rewrite IH by done. by rewrite decide_False.
Qed.

Lemma rfind_last (c : ascii) (a b : list ascii) :
  c ∉ b -> rfind c (a ++ c :: b) = Some (length a).
Proof.
  intros Hb. induction a as [|x a IH]; simpl.
  - rewrite rfind_None by done. by rewrite decide_True.
  - by rewrite IH.
Qed.

Lemma after_last_comma_app (a b : list ascii) :
  comma ∉ b -> after_last_comma (a ++ comma :: b) = b.
Proof.
  intros Hb. unfold after_last_comma. rewrite rfind_last by done.
  replace (a ++ comma :: b) with ((a ++ [comma]) ++ b) by (by rewrite <- app_assoc).
  apply drop_app_length'. by rewrite length_app.
Qed.

Lemma rstrip_app_keep (a b : list ascii) :
  rstrip b <> [] -> rstrip (a ++ b) = a ++ rstrip b.
Proof.
  intros Hb. induction a as [|x a IH]; [done|].
  cbn [app]. rewrite rstrip_cons, IH. by destruct (a ++ rstrip b) eqn:E; [destruct a|].
Qed.

Lemma rstrip_fixed_of_strip (l : list ascii) : py_strip l = l -> rstrip l = l.
Proof. intros H. rewrite <- H at 1. unfold py_strip. rewrite rstrip_idemp. exact H. Qed.

Lemma rstrip_after_comma (a dn : list ascii) :
  rstrip dn = dn -> rstrip (a ++ comma :: dn) = a ++ comma :: dn.
Proof.
  intros Hdn.
  assert (Hc : rstrip (comma :: dn) = comma :: dn).
  { rewrite rstrip_cons, Hdn. by destruct dn. }
  rewrite rstrip_app_keep; rewrite Hc; done.
Qed.

Lemma findall_tvg_id_skip (n : nat) (l : list ascii) :
  findall_tvg_id n l = findall_tvg_id 0 (drop n l).
Proof.
  revert l. induction n as [|n IH]; intros l; [done|].
  destruct l as [|c l]; [done|]. cbn [findall_tvg_id drop]. apply IH.
Qed.

Lemma findall_tvg_id_skip_prefix (pre l : list ascii) :
  Forall (fun c => c <> "t"%char) pre ->
  findall_tvg_id 0 (pre ++ l) = findall_tvg_id 0 l.
Proof.
  induction 1 as [|c pre Hc _ IH]; [done|]. cbn [app findall_tvg_id].
  destruct (match_tvg_id (c :: pre ++ l)) as [n|] eqn:Hm; [|done].
  exfalso. apply Hc. apply (match_tvg_id_head c (pre ++ l)). by eexists.
Qed.

Lemma match_tvg_id_nil : match_tvg_id [] = None.
Proof. reflexivity. Qed.

Lemma findall_tvg_id_match (l : list ascii) (n : nat) :
  match_tvg_id l = Some n ->
  (0 < n)%nat ->
  findall_tvg_id 0 l =
  take (n - length tvg_id_open - 1) (drop (length tvg_id_open) l)
    :: findall_tvg_id 0 (drop n l).
Proof.
  destruct l as [|c l]; [by rewrite match_tvg_id_nil|]. intros Hm Hn.
  cbn [findall_tvg_id]. rewrite Hm. f_equal. rewrite findall_tvg_id_skip.
  destruct n as [|n]; [lia|]. cbn [drop]. by replace (S n - 1)%nat with n by lia.
Qed.

Lemma findall_tvg_id_attr (ident tail : list ascii) :
  dquote ∉ ident ->
  findall_tvg_id 0 (tvg_id_attr ident ++ tail) = ident :: findall_tvg_id 0 tail.
Proof.
  intros Hq. unfold tvg_id_attr.
  replace ((tvg_id_open ++ ident ++ [dquote]) ++ tail)
    with (tvg_id_open ++ ident ++ dquote :: tail)
    by (by rewrite <- !app_assoc).
  rewrite (findall_tvg_id_match _ _ (match_tvg_id_attr ident tail Hq)) by lia.
  f_equal.
  - rewrite drop_app_length.
    replace (length tvg_id_open + length ident + 1 - length tvg_id_open - 1)%nat
      with (length ident) by lia.
    by rewrite take_app_length.
  - f_equal.
    replace (tvg_id_open ++ ident ++ dquote :: tail)
      with ((tvg_id_open ++ ident ++ [dquote]) ++ tail)
      by (by rewrite <- !app_assoc).
    apply drop_app_length'. rewrite !length_app. simpl. lia.
Qed.

Lemma no_quote_no_match (l : list ascii) : dquote ∉ l -> match_tvg_id l = None.
Proof.
  intros Hq. destruct (match_tvg_id l) as [n|] eqn:Hm; [|done].
  apply match_tvg_id_Some in Hm as (body & rest & -> & _). exfalso. apply Hq.
  rewrite !elem_of_app. right. right. left.
Qed.

Lemma no_quote_no_tvg_id (l : list ascii) : dquote ∉ l -> has_tvg_id l = false.
Proof.
  induction l as [|c l IH]; [done|]. intros Hq. cbn [has_tvg_id].
  rewrite (no_quote_no_match (c :: l) Hq).
  apply not_elem_of_cons in Hq as [_ Hq]. by rewrite IH.
Qed.

(** Replacing the text at the end of a descriptor by a text without double
    quote creates no identifier attribute. *)
Lemma has_tvg_id_replace_tail (x name dn : list ascii) :
  has_tvg_id (x ++ name) = false ->
  dquote ∉ dn ->
  has_tvg_id (x ++ dn) = false.
Proof.
  intros Hx Hq. induction x as [|c x IH]; [by apply no_quote_no_tvg_id|].
  pose proof (has_tvg_id_head _ Hx) as Hhead.
  cbn [app has_tvg_id] in Hx |- *. apply orb_false_elim in Hx as [_ Hx].
  rewrite (IH Hx), orb_false_r. apply bool_decide_eq_false. intros [n Hm].
  apply match_tvg_id_Some in Hm as (body & rest & Heq & Hb & _).
  change (c :: x ++ dn) with ((c :: x) ++ dn) in Heq.
  replace (tvg_id_open ++ body ++ dquote :: rest)
    with ((tvg_id_open ++ body ++ [dquote]) ++ rest) in Heq
    by (by rewrite <- !app_assoc).
  apply app_eq_app in Heq as (k & [[Hcx _] | [Hm Hdn]]).
  - rewrite Hcx in Hhead. rewrite <- !app_assoc in Hhead. cbn [app] in Hhead.
    rewrite (match_tvg_id_attr body (k ++ name) Hb) in Hhead. done.
  - destruct k as [|z k _] using rev_ind.
    + rewrite app_nil_r in Hm. rewrite <- Hm in Hhead.
      rewrite <- !app_assoc in Hhead. cbn [app] in Hhead.
      rewrite (match_tvg_id_attr body name Hb) in Hhead. done.
    + rewrite !app_assoc in Hm. apply app_inj_tail in Hm as [_ <-].
      apply Hq. rewrite Hdn, !elem_of_app. left. right. left.
Qed.

Lemma contains_char_false (c : ascii) (l : list ascii) :
  c ∉ l -> contains [c] l = false.
Proof.
  induction l as [|x l IH]; [done|]. intros [Hx Hl]%not_elem_of_cons.
  cbn [contains]. rewrite (IH Hl), orb_false_r. apply bool_decide_eq_false.
  unfold after_prefix. rewrite decide_False by done. by intros [? ?].
Qed.

Lemma lstrip_extinf_field (sign digits rest : list ascii) :
  lstrip (extinf_field sign digits ++ rest) = extinf_field sign digits ++ rest.
Proof. reflexivity. Qed.

Lemma starts_with_digit_app (attrs tail : list ascii) :
  starts_with_digit attrs = false ->
  starts_with_digit (attrs ++ comma :: tail) = false.
Proof. by destruct attrs. Qed.

Lemma is_digit_not_t (c : ascii) : is_digit c = true -> c <> "t"%char.
Proof. by intros H ->. Qed.

Lemma extinf_field_no_t (sign digits : list ascii) :
  sign = [] \/ sign = [minus] ->
  Forall (fun c => is_digit c = true) digits ->
  Forall (fun c => c <> "t"%char) (extinf_field sign digits ++ [space]).
Proof.
  intros Hsign Hd. unfold extinf_field. rewrite !Forall_app. split_and!.
  - by repeat constructor.
  - destruct Hsign as [-> | ->]; by repeat constructor.
  - eapply Forall_impl; [exact Hd|]. apply is_digit_not_t.
  - by repeat constructor.
Qed.

(** The rewrite of a descriptor without identifier attribute, of the form
    numeric field, attributes, comma, name. *)
Lemma rewrite_extinf_no_id (original : string) (id : option string) (display_name : string)
    (sign digits attrs name : list ascii) :
  chars original = extinf_field sign digits ++ attrs ++ comma :: name ->
  sign = [] \/ sign = [minus] ->
  digits <> [] ->
  Forall (fun c => is_digit c = true) digits ->
  starts_with_digit attrs = false ->
  has_tvg_id (chars original) = false ->
  comma ∉ name ->
  backslash ∉ id_text id ->
  strip display_name = display_name ->
  rewrite_extinf original id display_name =
  Some (text (extinf_field sign digits ++ space :: tvg_id_attr (id_text id)
                ++ attrs ++ comma :: chars display_name)).
Proof.
  intros Horig Hsign Hne Hd Hattrs Hno Hname Hbs Hstrip.
  unfold rewrite_extinf. cbv zeta.
  rewrite (contains_char_false _ _ Hbs).
  rewrite (re_sub_tvg_id_none _ _ Hno), (contains_tvg_id_attr _ _ Hno), Horig.
  rewrite (re_sub_extinf_first_field _ _ _ _ Hsign Hne Hd
             (starts_with_digit_app attrs name Hattrs)).
  set (ins := space :: tvg_id_attr (id_text id)).
  replace (extinf_field sign digits ++ ins ++ attrs ++ comma :: name)
    with ((extinf_field sign digits ++ ins ++ attrs) ++ comma :: name)
    by (by rewrite <- !app_assoc).
  rewrite (rfind_last _ _ _ Hname).
  assert (Htake :
    take (length (extinf_field sign digits ++ ins ++ attrs) + 1)
         ((extinf_field sign digits ++ ins ++ attrs) ++ comma :: name)
    = (extinf_field sign digits ++ ins ++ attrs) ++ [comma]).
  { replace ((extinf_field sign digits ++ ins ++ attrs) ++ comma :: name)
      with (((extinf_field sign digits ++ ins ++ attrs) ++ [comma]) ++ name)
      by (by rewrite <- !app_assoc).
    apply take_app_length'. rewrite (length_app _ [comma]). simpl. lia. }
  rewrite Htake. f_equal. f_equal.
  assert (Hdn : rstrip (chars display_name) = chars display_name).
  { apply rstrip_fixed_of_strip. unfold strip in Hstrip.
    rewrite <- Hstrip at 2. by rewrite chars_text. }
  unfold py_strip. rewrite <- !app_assoc. rewrite lstrip_extinf_field.
  subst ins. cbn [app].
  replace (extinf_field sign digits ++ space :: tvg_id_attr (id_text id)
             ++ attrs ++ comma :: chars display_name)
    with ((extinf_field sign digits ++ space :: tvg_id_attr (id_text id) ++ attrs)
            ++ comma :: chars display_name)
    by (rewrite <- !app_assoc; cbn [app]; by rewrite <- !app_assoc).
  by apply rstrip_after_comma.
Qed.

(** C6, as amended.  For a selected, associated entry whose original
    descriptor has no identifier attribute and is made of the numeric
    field (#EXTINF:, an optional minus sign, digits), attributes, a comma
    and a name without comma, and whose matched channel has an identifier
    without double quote or backslash and a primary display name without
    comma, double quote or surrounding white space: the generated
    descriptor is the original with one identifier attribute inserted
    right after the numeric field and the name replaced by the display
    name.  It holds exactly one identifier attribute, whose value is the
    channel's identifier; the text after its final comma is the display
    name; every other byte of the original is unchanged. *)
Theorem generate_m3u_inserts_identifier
    (item : MatchResult) (xmltv : Channel) (sign digits attrs name : list ascii) :
  let ident := id_text (ch_id xmltv) in
  let dn := chars (ch_display_name xmltv) in
  let generated :=
    extinf_field sign digits ++ space :: tvg_id_attr ident ++ attrs ++ comma :: dn in
  selected item = true ->
  xmltv_match item = Some xmltv ->
  chars (pe_original_extinf (m3u_data item))
    = extinf_field sign digits ++ attrs ++ comma :: name ->
  sign = [] \/ sign = [minus] ->
  digits <> [] ->
  Forall (fun c => is_digit c = true) digits ->
  starts_with_digit attrs = false ->
  has_tvg_id (chars (pe_original_extinf (m3u_data item))) = false ->
  comma ∉ name ->
  backslash ∉ ident ->
  dquote ∉ ident ->
  comma ∉ dn ->
  dquote ∉ dn ->
  strip (ch_display_name xmltv) = ch_display_name xmltv ->
  generate_m3u_lines [item] = Some ([text generated; pe_url (m3u_data item)], 1%nat)
  /\ findall_tvg_id 0 generated = [ident]
  /\ after_last_comma generated = dn.
Proof.
  intros ident dn generated Hsel Hmatch Horig Hsign Hne Hd Hattrs Hno Hname
    Hbs Hq Hdc Hdq Hstrip.
  split_and!.
  - cbn [generate_m3u_lines]. rewrite Hsel, Hmatch.
    by rewrite (rewrite_extinf_no_id _ _ _ sign digits attrs name).
  - subst generated.
    change (extinf_field sign digits ++ space :: tvg_id_attr ident ++ attrs ++ comma :: dn)
      with (extinf_field sign digits ++ [space]
              ++ tvg_id_attr ident ++ attrs ++ comma :: dn).
    rewrite app_assoc.
    rewrite findall_tvg_id_skip_prefix by by apply extinf_field_no_t.
    rewrite findall_tvg_id_attr by done. f_equal.
    apply findall_tvg_id_none.
    replace (attrs ++ comma :: dn) with ((attrs ++ [comma]) ++ dn)
      by (by rewrite <- app_assoc).
    apply (has_tvg_id_replace_tail _ name); [|done].
    rewrite <- app_assoc. cbn [app].
    apply (has_tvg_id_suffix (extinf_field sign digits)). by rewrite <- Horig.
  - subst generated.
    replace (extinf_field sign digits ++ space :: tvg_id_attr ident ++ attrs ++ comma :: dn)
      with ((extinf_field sign digits ++ space :: tvg_id_attr ident ++ attrs)
              ++ comma :: dn)
      by (rewrite <- !app_assoc; cbn [app]; by rewrite <- !app_assoc).
    by apply after_last_comma_app.
Qed.

Lemma generate_m3u_inserts_identifier_witness :
  generate_m3u_lines [r_news ch_fox] =
    Some ([text (chars "#EXTINF:-1 tvg-id=" ++ quoted "fox.us"
                   ++ chars " group-title=" ++ quoted "News" ++ chars ",Fox News");
           "http://example.org/fox"], 1%nat)
  /\ findall_tvg_id 0
       (chars "#EXTINF:-1 tvg-id=" ++ quoted "fox.us"
          ++ chars " group-title=" ++ quoted "News" ++ chars ",Fox News")
     = [chars "fox.us"]
  /\ after_last_comma
       (chars "#EXTINF:-1 tvg-id=" ++ quoted "fox.us"
          ++ chars " group-title=" ++ quoted "News" ++ chars ",Fox News")
     = chars "Fox News".
Proof.
  apply (generate_m3u_inserts_identifier (r_news ch_fox) ch_fox
           [minus] (chars "1") (chars " group-title=" ++ quoted "News") (chars "Fox")).
  - reflexivity.
  - reflexivity.
  - reflexivity.
  - by right.
  - discriminate.
  - by repeat constructor.
  - reflexivity.
  - vm_compute. reflexivity.
  - apply (bool_decide_unpack _). vm_compute. exact I.
  - apply (bool_decide_unpack _). vm_compute. exact I.
  - apply (bool_decide_unpack _). vm_compute. exact I.
  - apply (bool_decide_unpack _). vm_compute. exact I.
  - apply (bool_decide_unpack _). vm_compute. exact I.
  - vm_compute. reflexivity.
Defined.

Lemma display_name_with_comma_counterexample :
  has_tvg_id (chars (pe_original_extinf e_news)) = false
  /\ generate_m3u_lines [r_news ch_fox_hd] =
       Some ([text (chars "#EXTINF:-1 tvg-id=" ++ quoted "fox.us"
                      ++ chars " group-title=" ++ quoted "News" ++ chars ",Fox News, HD");
              "http://example.org/fox"], 1%nat)
  /\ after_last_comma
       (chars "#EXTINF:-1 tvg-id=" ++ quoted "fox.us"
          ++ chars " group-title=" ++ quoted "News" ++ chars ",Fox News, HD")
     = chars " HD"
  /\ chars " HD" <> chars (ch_display_name ch_fox_hd).
Proof.
  split_and!; [vm_compute; reflexivity..|]. vm_compute. discriminate.
Qed.

(** * Further properties of the engine *)

(** ** Matching engine and its callers *)

Lemma foldl_best_max (x : string * Z) (l : list (string * Z)) :
  let b := foldl (fun best y => if best.2 <? y.2 then y else best) x l in
  x.2 <= b.2 /\ forall y, y ∈ l -> y.2 <= b.2.
Proof.
  revert x. induction l as [|z l IH]; intros x; simpl.
  - split; [lia|]. by intros y ?%elem_of_nil.
  - destruct (x.2 <? z.2) eqn:Hlt.
    + apply Z.ltb_lt in Hlt. destruct (IH z) as [Hz Hl]. split; [lia|].
      intros y [->|Hy]%elem_of_cons; auto.
    + apply Z.ltb_ge in Hlt. destruct (IH x) as [Hx Hl]. split; [lia|].
      intros y [->|Hy]%elem_of_cons; [lia|auto].
Qed.

Lemma py_max_score_max (l : list (string * Z)) (x : string * Z) :
  py_max_score l = Some x -> forall y, y ∈ l -> y.2 <= x.2.
Proof.
  destruct l as [|z l]; [done|]. destruct (foldl_best_max z l) as [Hz Hl].
  intros [= <-] y [->|Hy]%elem_of_cons; auto.
Qed.

Lemma foldl_best_split (x : string * Z) (l : list (string * Z)) :
  let b := foldl (fun best y => if best.2 <? y.2 then y else best) x l in
  exists before after,
    x :: l = before ++ b :: after
    /\ Forall (fun y => y.2 < b.2) before
    /\ Forall (fun y => y.2 <= b.2) after.
Proof.
  induction l as [|y l IH] using rev_ind.
  - exists (@nil (string * Z)), (@nil (string * Z)). by split_and!.
  - cbv zeta in *. rewrite foldl_snoc. destruct IH as (before & after & Heq & Hb & Ha).
    set (b := foldl _ x l) in *.
    destruct (b.2 <? y.2) eqn:Hlt.
    + apply Z.ltb_lt in Hlt. exists (x :: l), (@nil (string * Z)).
      split_and!; [done| |done]. rewrite Heq. apply Forall_app. split.
      * eapply Forall_impl; [exact Hb|]. cbn beta. intros; lia.
      * constructor; [done|]. eapply Forall_impl; [exact Ha|]. cbn beta. intros; lia.
    + apply Z.ltb_ge in Hlt. exists before, (after ++ [y]). split_and!; [|done|].
      * by rewrite app_comm_cons, Heq, <- app_assoc.
      * apply Forall_app. split; [done|by constructor].
Qed.

(** [max] returns the first element of greatest score. *)
Lemma py_max_score_first (l : list (string * Z)) (x : string * Z) :
  py_max_score l = Some x ->
  exists before after,
    l = before ++ x :: after
    /\ Forall (fun y => y.2 < x.2) before
    /\ Forall (fun y => y.2 <= x.2) after.
Proof.
  destruct l as [|z l]; [done|]. intros [= <-]. apply foldl_best_split.
Qed.

Section MatcherExtras.

Variable fuzz_ratio : string -> string -> Z.
Variable set_order : gset string -> list string.
Hypothesis fuzz_ratio_range : forall query choice, 0 <= fuzz_ratio query choice <= 100.
Hypothesis set_order_perm : forall s, set_order s ≡ₚ elements s.

(** One result per playlist entry, in input order. *)
Theorem results_follow_playlist_order
    (m3u_channels : list PlaylistEntry) (xmltv_channels : list Channel)
    (threshold : Z) (preserve_existing progress_callback : bool) :
  xmltv_channels <> [] ->
  map m3u_data
    (auto_match_channels fuzz_ratio set_order m3u_channels xmltv_channels
       threshold preserve_existing progress_callback)
  = m3u_channels.
Proof using Type.
  intros Hne. rewrite auto_match_channels_spec by done.
  rewrite <- list_fmap_compose. apply list_fmap_id.
Qed.

(** Entries are matched independently of each other: matching a
    concatenated playlist gives the concatenation of the results. *)
Theorem matching_is_entrywise
    (l1 l2 : list PlaylistEntry) (xmltv_channels : list Channel)
    (threshold : Z) (preserve_existing progress_callback : bool) :
  auto_match_channels fuzz_ratio set_order (l1 ++ l2) xmltv_channels
    threshold preserve_existing progress_callback
  = auto_match_channels fuzz_ratio set_order l1 xmltv_channels
      threshold preserve_existing progress_callback
    ++ auto_match_channels fuzz_ratio set_order l2 xmltv_channels
         threshold preserve_existing progress_callback.
Proof using Type.
  destruct (decide (xmltv_channels = [])) as [->|Hne]; [done|].
  rewrite !auto_match_channels_spec by done. apply fmap_app.
Qed.

(** The engine never invents a channel: every association is a channel of
    the guide catalog. *)
Theorem association_is_guide_channel
    (m3u_channels : list PlaylistEntry) (xmltv_channels : list Channel)
    (threshold : Z) (preserve_existing progress_callback : bool)
    (r : MatchResult) (ch : Channel) :
  r ∈ auto_match_channels fuzz_ratio set_order m3u_channels xmltv_channels
        threshold preserve_existing progress_callback ->
  xmltv_match r = Some ch ->
  ch ∈ xmltv_channels.
Proof using Type.
  destruct (decide (xmltv_channels = [])) as [->|Hne].
  { by intros ?%elem_of_nil. }
  rewrite auto_match_channels_spec by done.
  intros (e & -> & _)%list_elem_of_fmap.
  unfold entry_result, make_result, match_entry. cbn [xmltv_match].
  rewrite build_xmltv_indices_eq.
  destruct (id_rule_applies _ preserve_existing e).
  { cbn [fst]. by intros [? _]%dict_of_lookup_Some. }
  destruct (dict_of _ xmltv_channels !! normalize_name (pe_name e)) as [c|] eqn:Hname.
  { cbn [fst]. intros [= <-]. by apply dict_of_lookup_Some in Hname as [? _]. }
  destruct (fuzzy_choices _ _ _ _) as [|c l]; [done|].
  destruct (extractOne fuzz_ratio (pe_name e) (c :: l)) as [[n s]|]; [|done].
  cbn [fst]. by intros [? _]%dict_of_lookup_Some.
Qed.

Lemma extractWithoutOrder_all (query : string) (choices : list string) :
  extractWithoutOrder fuzz_ratio query choices
  = map (fun choice => (choice, fuzz_ratio query choice)) choices.
Proof using fuzz_ratio_range.
  unfold extractWithoutOrder. induction choices as [|c l IH]; [done|].
  cbn [map]. rewrite filter_cons_True by (cbn [snd]; apply fuzz_ratio_range).
  by rewrite IH.
Qed.

Lemma extractOne_first (query : string) (choices : list string) (n : string) (s : Z) :
  extractOne fuzz_ratio query choices = Some (n, s) ->
  exists before after,
    choices = before ++ n :: after
    /\ s = fuzz_ratio query n
    /\ Forall (fun choice => fuzz_ratio query choice < s) before
    /\ Forall (fun choice => fuzz_ratio query choice <= s) after.
Proof using fuzz_ratio_range.
  unfold extractOne. rewrite extractWithoutOrder_all.
  intros (before' & after' & Heq & Hb & Ha)%py_max_score_first.
  apply fmap_app_inv in Heq as (before & rest & -> & Hrest & ->).
  symmetry in Hrest. apply fmap_cons_inv in Hrest as (c & after & [= -> ->] & -> & ->).
  exists before, after. split_and!; [done..| |].
  - apply Forall_forall. intros x Hx. rewrite Forall_forall in Hb.
    apply (Hb (x, fuzz_ratio query x)). apply list_elem_of_fmap. by exists x.
  - apply Forall_forall. intros x Hx. rewrite Forall_forall in Ha.
    apply (Ha (x, fuzz_ratio query x)). apply list_elem_of_fmap. by exists x.
Qed.

(** When neither the identifier rule nor the exact-name rule applies to
    an entry of a playlist matched against a guide that is not empty, the
    fuzzy rule decides: the score of the result is the scorer's value of
    the entry's name against a member of the candidate pool, the winner;
    every pool member before the winner scores strictly less and none
    after it scores more (the first best member wins); and the
    association is what the normalised-name index holds under the
    normalised winner. *)
Theorem fuzzy_winner_is_best
    (m3u_channels : list PlaylistEntry) (xmltv_channels : list Channel)
    (threshold : Z) (preserve_existing progress_callback : bool)
    (i : nat) (e : PlaylistEntry) :
  m3u_channels !! i = Some e ->
  xmltv_channels <> [] ->
  id_rule_applies (channels_by_id_of xmltv_channels) preserve_existing e = false ->
  channels_by_display_name_of xmltv_channels !! normalize_name (pe_name e) = None ->
  exists r winner before after,
    auto_match_channels fuzz_ratio set_order m3u_channels xmltv_channels
      threshold preserve_existing progress_callback !! i = Some r
    /\ fuzzy_choices set_order (token_index_of xmltv_channels)
         (map ch_display_name xmltv_channels) (normalize_name (pe_name e))
       = before ++ winner :: after
    /\ score r = fuzz_ratio (pe_name e) winner
    /\ Forall (fun choice => fuzz_ratio (pe_name e) choice < score r) before
    /\ Forall (fun choice => fuzz_ratio (pe_name e) choice <= score r) after
    /\ xmltv_match r
       = channels_by_display_name_of xmltv_channels !! normalize_name winner.
Proof using fuzz_ratio_range set_order_perm.
  intros He Hne Hid Hname.
  pose proof (fuzzy_choices_nonempty set_order set_order_perm xmltv_channels
                (normalize_name (pe_name e)) Hne) as Hpool.
  destruct (extractOne_is_Some fuzz_ratio fuzz_ratio_range (pe_name e) _ Hpool)
    as [[n s] Hone].
  destruct (extractOne_first _ _ _ _ Hone) as (before & after & Heq & Hs & Hb & Ha).
  exists (entry_result fuzz_ratio set_order (build_xmltv_indices xmltv_channels)
            (map ch_display_name xmltv_channels) threshold preserve_existing e),
         n, before, after.
  split. { rewrite auto_match_channels_spec by done. by rewrite list_lookup_fmap, He. }
  split; [done|].
  assert (Hentry :
    match_entry fuzz_ratio set_order (build_xmltv_indices xmltv_channels)
      (map ch_display_name xmltv_channels) preserve_existing e
    = (channels_by_display_name_of xmltv_channels !! normalize_name n, s)).
  { unfold match_entry.
    unfold channels_by_id_of, channels_by_display_name_of, token_index_of
      in Hid, Hname, Hone, Hpool |- *.
    rewrite build_xmltv_indices_eq in Hid, Hname, Hone, Hpool |- *.
    cbn [fst snd] in Hid, Hname, Hone, Hpool |- *.
    rewrite Hid, Hname, Hone.
    by destruct (fuzzy_choices _ _ _ _). }
  unfold entry_result, make_result. rewrite Hentry. cbn [score xmltv_match fst snd].
  by rewrite <- Hs.
Qed.

(** Moving the threshold afterwards, as the application does, gives what
    matching at the new threshold gives: the threshold decides the selected
    flags and nothing else. *)
Theorem apply_threshold_is_rematch
    (m3u_channels : list PlaylistEntry) (xmltv_channels : list Channel)
    (threshold threshold' : Z) (preserve_existing progress_callback : bool) :
  apply_threshold threshold'
    (auto_match_channels fuzz_ratio set_order m3u_channels xmltv_channels
       threshold preserve_existing progress_callback)
  = auto_match_channels fuzz_ratio set_order m3u_channels xmltv_channels
      threshold' preserve_existing progress_callback.
Proof using Type.
  destruct (decide (xmltv_channels = [])) as [->|Hne]; [done|].
  rewrite !auto_match_channels_spec by done. unfold apply_threshold.
  rewrite <- list_fmap_compose. by apply list_fmap_ext.
Qed.

Lemma concat_singletons {A B} (g : A -> B) (l : list A) :
  concat (map (fun x => [g x]) l) = map g l.
Proof. induction l as [|x l IH]; [done|]. simpl. by rewrite IH. Qed.

Lemma progress_counts_appends (l : list MatchResult) :
  progress_counts (map ResultAppended l) = [].
Proof. by induction l. Qed.

(** The progress callback does not influence the results, and without a
    callback the loop only appends results. *)
Theorem callback_leaves_results_alone
    (m3u_channels : list PlaylistEntry) (xmltv_channels : list Channel)
    (threshold : Z) (preserve_existing : bool) :
  let silent := auto_match_channels_traced fuzz_ratio set_order m3u_channels
                  xmltv_channels threshold preserve_existing false in
  silent.1 = auto_match_channels fuzz_ratio set_order m3u_channels xmltv_channels
               threshold preserve_existing true
  /\ silent.2 = map ResultAppended silent.1
  /\ progress_counts silent.2 = [].
Proof using Type.
  intros silent. subst silent.
  destruct (decide (xmltv_channels = [])) as [->|Hne]; [done|].
  unfold auto_match_channels. rewrite !auto_match_channels_traced_spec by done.
  cbn [fst snd].
  assert (Htrace :
    concat (imap (entry_events fuzz_ratio set_order (build_xmltv_indices xmltv_channels)
                    (map ch_display_name xmltv_channels) threshold preserve_existing false)
                 m3u_channels)
    = map ResultAppended
        (map (entry_result fuzz_ratio set_order (build_xmltv_indices xmltv_channels)
                (map ch_display_name xmltv_channels) threshold preserve_existing)
             m3u_channels)).
  { rewrite <- list_fmap_compose, <- (concat_singletons _ m3u_channels).
    f_equal. etrans; [|apply imap_const]. by apply imap_ext. }
  rewrite Htrace. split_and!; [done..|]. apply progress_counts_appends.
Qed.

(** The channel associated by identifier continuity carries the entry's
    stripped hint as its identifier, and is a channel of the guide. *)
Theorem identifier_rule_keeps_identifier
    (m3u_channels : list PlaylistEntry) (xmltv_channels : list Channel)
    (threshold : Z) (preserve_existing progress_callback : bool)
    (i : nat) (e : PlaylistEntry) :
  m3u_channels !! i = Some e ->
  id_rule_applies (channels_by_id_of xmltv_channels) preserve_existing e = true ->
  exists ch,
    auto_match_channels fuzz_ratio set_order m3u_channels xmltv_channels
      threshold preserve_existing progress_callback !! i =
      Some {| m3u_data := e; xmltv_match := Some ch; score := 100;
              selected := bool_decide (threshold <= 100) |}
    /\ ch_id ch = Some (strip (pe_tvg_id e))
    /\ ch ∈ xmltv_channels.
Proof using Type.
  intros He Hid.
  pose proof Hid as (-> & Hhint & [ch Hch])%id_rule_applies_true.
  exists ch. split.
  - rewrite auto_match_channels_spec by by eapply channels_by_id_of_nonempty.
    rewrite list_lookup_fmap, He. cbn [fmap option_fmap option_map]. f_equal.
    unfold entry_result, match_entry. rewrite build_xmltv_indices_eq.
    unfold channels_by_id_of in Hid, Hch. rewrite build_xmltv_indices_eq in Hid, Hch.
    cbn [fst snd] in Hid, Hch |- *. by rewrite Hid, Hch.
  - unfold channels_by_id_of in Hch. rewrite build_xmltv_indices_eq in Hch.
    cbn [snd] in Hch. apply dict_of_lookup_Some in Hch as [? ?]. done.
Qed.

End MatcherExtras.

(** ** Index builder *)

Lemma dict_of_last {K V : Type} `{Countable K} (key : V -> K) (l : list V) (k : K) :
  dict_of key l !! k = last (filter (fun x => key x = k) l).
Proof.
  unfold dict_of. induction l as [|x l IH] using rev_ind; [done|].
  rewrite foldl_snoc, filter_app. destruct (decide (key x = k)) as [Hk|Hk].
  - rewrite filter_cons_True by done. rewrite filter_nil, last_snoc.
    rewrite <- Hk. apply lookup_insert_eq.
  - rewrite filter_cons_False by done. rewrite filter_nil, app_nil_r.
    by rewrite lookup_insert_ne.
Qed.

(** Last write wins: the identifier index and the normalised-name index
    answer, for a key, the last channel of the catalog that has this key,
    and nothing when no channel has it. *)
Theorem indices_last_write_wins (xmltv_channels : list Channel)
    (id : option string) (normalized : string) :
  channels_by_id_of xmltv_channels !! id
    = last (filter (fun ch => ch_id ch = id) xmltv_channels)
  /\ channels_by_display_name_of xmltv_channels !! normalized
     = last (filter (fun ch => normalize_name (ch_display_name ch) = normalized)
               xmltv_channels).
Proof.
  unfold channels_by_id_of, channels_by_display_name_of.
  rewrite build_xmltv_indices_eq. cbn [fst snd]. split; apply dict_of_last.
Qed.

(** A later channel with the same identifier replaces the earlier one in
    the identifier index. *)
Example identifier_index_collision :
  channels_by_id_of [sample_channel "x" "First"; ch_fox; sample_channel "x" "Second"]
    !! Some "x" = Some (sample_channel "x" "Second").
Proof. vm_compute. reflexivity. Qed.

(** ** Playlist generator *)

Lemma generate_m3u_lines_skip (item : MatchResult) (rest : list MatchResult) :
  ~ written item -> generate_m3u_lines (item :: rest) = generate_m3u_lines rest.
Proof.
  unfold written. intros Hw. cbn [generate_m3u_lines].
  destruct (selected item); [|done].
  destruct (xmltv_match item); [|done]. exfalso. apply Hw. split; [done|by eexists].
Qed.

(** Results that are not selected or not associated leave no trace in the
    playlist: generating from all results is generating from the written
    ones. *)
Theorem generate_m3u_skips_unwritten (processed_channels_data : list MatchResult) :
  generate_m3u processed_channels_data
  = generate_m3u (filter written processed_channels_data).
Proof.
  unfold generate_m3u. f_equal.
  induction processed_channels_data as [|item rest IH]; [done|].
  destruct (decide (written item)) as [Hw|Hw].
  - rewrite filter_cons_True by done. cbn [generate_m3u_lines].
    destruct Hw as [-> [xmltv ->]]. by rewrite IH.
  - rewrite filter_cons_False by done. by rewrite generate_m3u_lines_skip.
Qed.

Lemma generate_m3u_lines_count (processed_channels_data : list MatchResult)
    (lines : list string) (count : nat) :
  generate_m3u_lines processed_channels_data = Some (lines, count) ->
  count = length (filter written processed_channels_data)
  /\ length lines = (2 * count)%nat.
Proof.
  revert lines count.
  induction processed_channels_data as [|item rest IH]; intros lines count.
  - intros [= <- <-]. done.
  - destruct (decide (written item)) as [Hw|Hw].
    + rewrite filter_cons_True by done. cbn [generate_m3u_lines].
      destruct Hw as [-> [xmltv ->]].
      destruct (rewrite_extinf _ _ _) as [new_extinf|]; [|done]. cbn [mbind option_bind].
      destruct (generate_m3u_lines rest) as [[lines' count']|]; [|done].
      cbn [mbind option_bind]. intros [= <- <-].
      destruct (IH lines' count' eq_refl) as [-> Hlen]. cbn [length]. split; lia.
    + rewrite filter_cons_False by done. rewrite generate_m3u_lines_skip by done.
      apply IH.
Qed.

Lemma filter_Forall_iff {A} (P Q : A -> Prop) `{!forall x, Decision (P x)}
    `{!forall x, Decision (Q x)} (l : list A) :
  Forall (fun x => P x <-> Q x) l -> filter P l = filter Q l.
Proof.
  induction 1 as [|x l Hx _ IH]; [done|].
  destruct (decide (P x)) as [HP|HP].
  - rewrite !filter_cons_True by tauto. by rewrite IH.
  - rewrite !filter_cons_False by tauto. done.
Qed.

Lemma update_match_counts_nonempty (threshold : Z) (l : list MatchResult) :
  l <> [] ->
  update_match_counts threshold l =
  Some (length l,
        length (filter (fun item => is_Some (xmltv_match item) /\ threshold <= score item) l),
        (length l
         - length (filter (fun item => is_Some (xmltv_match item)
                                       /\ (threshold <= score item)%Z) l))%nat,
        length (filter (fun item => selected item = true) l)).
Proof. by destruct l. Qed.

Section EngineAndCallers.

Variable fuzz_ratio : string -> string -> Z.
Variable set_order : gset string -> list string.
Hypothesis fuzz_ratio_range : forall query choice, 0 <= fuzz_ratio query choice <= 100.
Hypothesis set_order_perm : forall s, set_order s ≡ₚ elements s.

(** On the results of the engine the statistics of the application and the
    playlist generator agree: the matched count at the matching threshold,
    the selected count and the number of entries written are one number. *)
Theorem matched_selected_written_agree
    (m3u_channels : list PlaylistEntry) (xmltv_channels : list Channel)
    (threshold : Z) (preserve_existing progress_callback : bool) :
  xmltv_channels <> [] ->
  m3u_channels <> [] ->
  let results := auto_match_channels fuzz_ratio set_order m3u_channels xmltv_channels
                   threshold preserve_existing progress_callback in
  let k := length (filter written results) in
  update_match_counts threshold results
    = Some (length m3u_channels, k, (length m3u_channels - k)%nat, k)
  /\ forall lines count, generate_m3u results = Some (lines, count) -> count = k.
Proof using fuzz_ratio_range set_order_perm.
  intros Hne Hm3u results k.
  assert (Hall : Forall (fun r => is_Some (xmltv_match r)
                          /\ selected r = bool_decide (threshold <= score r)) results).
  { apply Forall_forall. intros r Hr.
    subst results. rewrite auto_match_channels_spec in Hr by done.
    apply list_elem_of_fmap in Hr as (e & -> & _). split; [|done].
    by apply (match_entry_sound fuzz_ratio set_order fuzz_ratio_range set_order_perm
                xmltv_channels preserve_existing e). }
  assert (Hlen : length results = length m3u_channels).
  { subst results. rewrite auto_match_channels_spec by done. apply length_fmap. }
  split.
  - rewrite update_match_counts_nonempty; last first.
    { intros Hnil. rewrite Hnil in Hlen. destruct m3u_channels; [done|]. simpl in Hlen. lia. }
    rewrite Hlen. subst k.
    rewrite (filter_Forall_iff _ written results).
    + rewrite (filter_Forall_iff (fun item => selected item = true) written results); [done|].
      eapply Forall_impl; [exact Hall|]. unfold written. intros r [Hs _]. tauto.
    + eapply Forall_impl; [exact Hall|]. unfold written. intros r [Hs ->].
      rewrite bool_decide_eq_true. tauto.
  - intros lines count. unfold generate_m3u.
    destruct (generate_m3u_lines results) as [[lines' count']|] eqn:Hl; [|done].
    cbn [mbind option_bind]. intros [= <- <-].
    by apply generate_m3u_lines_count in Hl as [-> _].
Qed.

End EngineAndCallers.

(** ** Guide generator *)

Lemma collect_ext (full : gmap string Element) (p1 p2 : list MatchResult)
    (st : gset string * gmap string Element) :
  map wanted_id p1 = map wanted_id p2 ->
  foldl (collect_step full) st p1 = foldl (collect_step full) st p2.
Proof.
  revert p2 st. induction p1 as [|a p1 IH]; intros [|b p2] st; try done.
  intros [= Hab Hrest]. cbn [foldl].
  rewrite (collect_step_wanted full st a), (collect_step_wanted full st b), Hab.
  by apply IH.
Qed.

(** The guide written depends on the match results only through the wanted
    identifiers: the channel subtree, names and scores that a result
    carries never reach the output. *)
Theorem generate_xmltv_reads_identifiers_only
    (p1 p2 : list MatchResult) (xmltv_folder : list SourceFile) :
  map wanted_id p1 = map wanted_id p2 ->
  generate_xmltv p1 xmltv_folder = generate_xmltv p2 xmltv_folder.
Proof.
  intros Heq. unfold generate_xmltv. by rewrite (collect_ext _ p1 p2).
Qed.

Lemma xmltv_files_idemp (folder : list SourceFile) :
  xmltv_files (xmltv_files folder) = xmltv_files folder.
Proof.
  unfold xmltv_files. induction folder as [|f l IH]; [done|].
  destruct (decide (is_guide_file (sf_name f) = true)) as [Hf|Hf].
  - rewrite (filter_cons_True _ f l) by done. rewrite filter_cons_True by done.
    by rewrite IH.
  - by rewrite (filter_cons_False _ f l) by done.
Qed.

(** Files of the folder whose name does not end in .xml, .gz or .xmltv
    (in any letter case) play no part in the guide written. *)
Theorem generate_xmltv_ignores_other_files
    (processed_channels_data : list MatchResult) (xmltv_folder : list SourceFile) :
  generate_xmltv processed_channels_data xmltv_folder
  = generate_xmltv processed_channels_data (xmltv_files xmltv_folder).
Proof. unfold generate_xmltv. by rewrite xmltv_files_idemp. Qed.



(** ** Playlist generator: a descriptor that has an identifier attribute *)

Lemma re_sub_tvg_id_skip (repl : list ascii) (n : nat) (l : list ascii) :
  re_sub_tvg_id repl n l = re_sub_tvg_id repl 0 (drop n l).
Proof.
  revert l. induction n as [|n IH]; intros l; [done|].
  destruct l as [|c l]; [done|]. cbn [re_sub_tvg_id drop]. apply IH.
Qed.

Lemma re_sub_tvg_id_skip_prefix (repl pre l : list ascii) :
  Forall (fun c => c <> "t"%char) pre ->
  re_sub_tvg_id repl 0 (pre ++ l) = pre ++ re_sub_tvg_id repl 0 l.
Proof.
  induction 1 as [|c pre Hc _ IH]; [done|]. cbn [app re_sub_tvg_id].
  destruct (match_tvg_id (c :: pre ++ l)) as [n|] eqn:Hm; [|by rewrite IH].
  exfalso. apply Hc. apply (match_tvg_id_head c (pre ++ l)). by eexists.
Qed.

Lemma re_sub_tvg_id_match (repl l : list ascii) (n : nat) :
  match_tvg_id l = Some n ->
  (0 < n)%nat ->
  re_sub_tvg_id repl 0 l = repl ++ re_sub_tvg_id repl 0 (drop n l).
Proof.
  destruct l as [|c l]; [by rewrite match_tvg_id_nil|]. intros Hm Hn.
  cbn [re_sub_tvg_id]. rewrite Hm. f_equal. rewrite re_sub_tvg_id_skip.
  destruct n as [|n]; [lia|]. cbn [drop]. by replace (S n - 1)%nat with n by lia.
Qed.

Lemma re_sub_tvg_id_attr (repl old tail : list ascii) :
  dquote ∉ old ->
  has_tvg_id tail = false ->
  re_sub_tvg_id repl 0 (tvg_id_attr old ++ tail) = repl ++ tail.
Proof.
  intros Hq Htail. unfold tvg_id_attr.
  replace ((tvg_id_open ++ old ++ [dquote]) ++ tail)
    with (tvg_id_open ++ old ++ dquote :: tail)
    by (by rewrite <- !app_assoc).
  rewrite (re_sub_tvg_id_match _ _ _ (match_tvg_id_attr old tail Hq)) by lia.
  f_equal.
  replace (tvg_id_open ++ old ++ dquote :: tail)
    with ((tvg_id_open ++ old ++ [dquote]) ++ tail)
    by (by rewrite <- !app_assoc).
  rewrite drop_app_length'; [by apply re_sub_tvg_id_none|].
  rewrite !length_app. simpl. lia.
Qed.

Lemma contains_app (p a b : list ascii) : contains p (a ++ p ++ b) = true.
Proof.
  induction a as [|x a IH].
  - cbn [app]. destruct (p ++ b) as [|c l] eqn:Hpb.
    + apply app_eq_nil in Hpb as [-> _]. done.
    + cbn [contains]. rewrite <- Hpb, after_prefix_app.
      rewrite bool_decide_eq_true_2; [done|by eexists].
  - cbn [app contains]. by rewrite IH, orb_true_r.
Qed.

(** The rewrite of a descriptor whose identifier attribute directly follows
    the numeric field. *)
Lemma rewrite_extinf_with_id (original : string) (id : option string)
    (display_name : string) (sign digits old attrs name : list ascii) :
  chars original
    = extinf_field sign digits ++ space :: tvg_id_attr old ++ attrs ++ comma :: name ->
  sign = [] \/ sign = [minus] ->
  Forall (fun c => is_digit c = true) digits ->
  dquote ∉ old ->
  has_tvg_id (attrs ++ comma :: name) = false ->
  comma ∉ name ->
  backslash ∉ id_text id ->
  strip display_name = display_name ->
  rewrite_extinf original id display_name =
  Some (text (extinf_field sign digits ++ space :: tvg_id_attr (id_text id)
                ++ attrs ++ comma :: chars display_name)).
Proof.
  intros Horig Hsign Hd Hold Htail Hname Hbs Hstrip.
  unfold rewrite_extinf. cbv zeta.
  rewrite (contains_char_false _ _ Hbs), Horig.
  change (extinf_field sign digits ++ space :: tvg_id_attr old ++ attrs ++ comma :: name)
    with (extinf_field sign digits ++ [space] ++ tvg_id_attr old ++ attrs ++ comma :: name).
  rewrite app_assoc.
  rewrite (re_sub_tvg_id_skip_prefix _ _ _ (extinf_field_no_t _ _ Hsign Hd)).
  rewrite (re_sub_tvg_id_attr _ _ _ Hold Htail).
  rewrite contains_app.
  set (new_attr := tvg_id_attr (id_text id)).
  replace ((extinf_field sign digits ++ [space]) ++ new_attr ++ attrs ++ comma :: name)
    with (((extinf_field sign digits ++ [space]) ++ new_attr ++ attrs) ++ comma :: name)
    by (by rewrite <- !app_assoc).
  rewrite (rfind_last _ _ _ Hname).
  replace ((((extinf_field sign digits ++ [space]) ++ new_attr ++ attrs) ++ comma :: name))
    with ((((extinf_field sign digits ++ [space]) ++ new_attr ++ attrs) ++ [comma]) ++ name)
    by (by rewrite <- !app_assoc).
  rewrite take_app_length' by (rewrite (length_app _ [comma]); simpl; lia).
  f_equal. f_equal.
  assert (Hdn : rstrip (chars display_name) = chars display_name).
  { apply rstrip_fixed_of_strip. unfold strip in Hstrip.
    rewrite <- Hstrip at 2. by rewrite chars_text. }
  unfold py_strip. rewrite <- !app_assoc. rewrite lstrip_extinf_field.
  cbn [app].
  replace (extinf_field sign digits ++ space :: new_attr
             ++ attrs ++ comma :: chars display_name)
    with ((extinf_field sign digits ++ space :: new_attr ++ attrs)
            ++ comma :: chars display_name)
    by (rewrite <- !app_assoc; cbn [app]; by rewrite <- !app_assoc).
  by apply rstrip_after_comma.
Qed.

(** Replacing an identifier attribute in place.  The result is selected
    and associated; its descriptor is #EXTINF:, an optional minus sign,
    digits, a space, an identifier attribute whose old value holds no
    double quote, then further text, a comma and a name without comma,
    with no identifier attribute after the first one.  The channel's identifier, as the generator
    prints it, holds no backslash, and the channel's display name has no
    white space at either end.  Then the generator writes that descriptor
    with the value of the attribute replaced by the channel's identifier,
    the text between the attribute and the final comma kept, and the name
    replaced by the display name; it writes the URL after it and counts
    one channel. *)
Theorem generate_m3u_replaces_identifier
    (item : MatchResult) (xmltv : Channel) (sign digits old attrs name : list ascii) :
  let ident := id_text (ch_id xmltv) in
  let dn := chars (ch_display_name xmltv) in
  selected item = true ->
  xmltv_match item = Some xmltv ->
  chars (pe_original_extinf (m3u_data item))
    = extinf_field sign digits ++ space :: tvg_id_attr old ++ attrs ++ comma :: name ->
  sign = [] \/ sign = [minus] ->
  Forall (fun c => is_digit c = true) digits ->
  dquote ∉ old ->
  has_tvg_id (attrs ++ comma :: name) = false ->
  comma ∉ name ->
  backslash ∉ ident ->
  strip (ch_display_name xmltv) = ch_display_name xmltv ->
  generate_m3u_lines [item] =
  Some ([text (extinf_field sign digits ++ space :: tvg_id_attr ident
                 ++ attrs ++ comma :: dn);
         pe_url (m3u_data item)], 1%nat).
Proof.
  intros ident dn Hsel Hmatch Horig Hsign Hd Hold Htail Hname Hbs Hstrip.
  cbn [generate_m3u_lines]. rewrite Hsel, Hmatch.
  by rewrite (rewrite_extinf_with_id _ _ _ sign digits old attrs name).
Qed.

(** Rewriting twice is rewriting once, under these conditions.  The
    descriptor is #EXTINF:, an optional minus sign, at least one digit,
    then text that does not begin with a digit, a comma and a name
    without comma, and it holds no identifier attribute.  The identifier,
    as the generator prints it, holds neither backslash nor double quote.
    The display name holds neither comma nor double quote and has no
    white space at either end.  Then the rewrite of the descriptor gives
    the descriptor with the identifier attribute inserted after the
    digits and with the name replaced by the display name, and rewriting
    this result for the same identifier and display name gives it
    again. *)
Theorem rewrite_extinf_idempotent
    (original : string) (id : option string) (display_name : string)
    (sign digits attrs name : list ascii) :
  chars original = extinf_field sign digits ++ attrs ++ comma :: name ->
  sign = [] \/ sign = [minus] ->
  digits <> [] ->
  Forall (fun c => is_digit c = true) digits ->
  starts_with_digit attrs = false ->
  has_tvg_id (chars original) = false ->
  comma ∉ name ->
  backslash ∉ id_text id ->
  dquote ∉ id_text id ->
  comma ∉ chars display_name ->
  dquote ∉ chars display_name ->
  strip display_name = display_name ->
  let generated :=
    text (extinf_field sign digits ++ space :: tvg_id_attr (id_text id)
            ++ attrs ++ comma :: chars display_name) in
  rewrite_extinf original id display_name = Some generated
  /\ rewrite_extinf generated id display_name = Some generated.
Proof.
  intros Horig Hsign Hne Hd Hattrs Hno Hname Hbs Hq Hdc Hdq Hstrip generated.
  subst generated. split.
  - by apply (rewrite_extinf_no_id _ _ _ sign digits attrs name).
  - apply (rewrite_extinf_with_id _ _ _ sign digits (id_text id) attrs
             (chars display_name)); try done.
    + by rewrite chars_text.
    + replace (attrs ++ comma :: chars display_name)
        with ((attrs ++ [comma]) ++ chars display_name)
        by (by rewrite <- app_assoc).
      apply (has_tvg_id_replace_tail _ name); [|done].
      rewrite <- app_assoc. cbn [app].
      apply (has_tvg_id_suffix (extinf_field sign digits)). by rewrite <- Horig.
Qed.

(** ** Playlist parser *)

#[local] Arguments match_m3u_entry : simpl never.
#[local] Arguments match_attr : simpl never.

Lemma find_char_Some (c : ascii) (l : list ascii) (k : nat) :
  find_char c l = Some k ->
  exists a b, l = a ++ c :: b /\ (c ∉ a) /\ k = length a.
Proof.
  revert k. induction l as [|x l IH]; intros k; [done|].
  cbn [find_char]. destruct (decide (x = c)) as [->|Hx].
  - intros [= <-]. exists (@nil ascii), l. split_and!; [done| |done].
    by intros ?%elem_of_nil.
  - destruct (find_char c l) as [m|]; [|done]. cbn [fmap option_fmap option_map].
    intros [= <-]. destruct (IH m eq_refl) as (a & b & -> & Ha & ->).
    exists (x :: a), b. split_and!; [done| |done].
    intros [?|?]%elem_of_cons; congruence.
Qed.

Lemma find_char_first (c : ascii) (a b : list ascii) :
  c ∉ a -> find_char c (a ++ c :: b) = Some (length a).
Proof.
  induction a as [|x a IH]; intros Ha.
  - cbn [app find_char]. by rewrite decide_True.
  - apply not_elem_of_cons in Ha as [Hx Ha]. cbn [app find_char].
    rewrite decide_False by done. by rewrite IH.
Qed.

Lemma entry_rest_len_le (l : list ascii) : (entry_rest_len l <= length l)%nat.
Proof.
  induction l as [|x l IH]; [done|]. cbn [entry_rest_len length].
  case_bool_decide; lia.
Qed.

(** A text that holds an entry: #EXTINF:, a first line without newline, a
    newline and the rest. *)
Lemma match_m3u_entry_Some (l : list ascii) (n : nat) :
  match_m3u_entry l = Some n ->
  exists d rest,
    l = chars "#EXTINF:" ++ d ++ newline :: rest /\ (newline ∉ d)
    /\ n = (length (chars "#EXTINF:") + length d + 1 + entry_rest_len rest)%nat.
Proof.
  unfold match_m3u_entry.
  destruct (after_prefix (chars "#EXTINF:") l) as [r|] eqn:Hp; [|done].
  cbn [mbind option_bind].
  destruct (find_char newline r) as [k|] eqn:Hk; [|done]. cbn [mbind option_bind].
  intros [= <-]. apply after_prefix_Some in Hp as ->.
  apply find_char_Some in Hk as (d & rest & -> & Hd & ->).
  exists d, rest. split_and!; [done..|].
  replace (d ++ newline :: rest) with ((d ++ [newline]) ++ rest)
    by (by rewrite <- app_assoc).
  rewrite drop_app_length'; [done|]. by rewrite length_app.
Qed.

Lemma match_m3u_entry_take (l : list ascii) (n : nat) :
  match_m3u_entry l = Some n ->
  exists d u, take n l = chars "#EXTINF:" ++ d ++ newline :: u /\ (newline ∉ d).
Proof.
  intros (d & rest & -> & Hd & ->)%match_m3u_entry_Some.
  exists d, (take (entry_rest_len rest) rest). split; [|done].
  replace (chars "#EXTINF:" ++ d ++ newline :: rest)
    with ((chars "#EXTINF:" ++ d ++ [newline]) ++ rest)
    by (by rewrite <- !app_assoc).
  rewrite take_app_add'; [by rewrite <- !app_assoc|].
  rewrite !length_app. simpl. lia.
Qed.

Lemma findall_m3u_entries_shape (skip : nat) (l entry : list ascii) :
  entry ∈ findall_m3u_entries skip l ->
  exists d u, entry = chars "#EXTINF:" ++ d ++ newline :: u /\ (newline ∉ d).
Proof.
  revert skip. induction l as [|c l IH]; intros skip; [by intros ?%elem_of_nil|].
  cbn [findall_m3u_entries]. destruct skip as [|k]; [|apply IH].
  destruct (match_m3u_entry (c :: l)) as [n|] eqn:Hm; [|apply IH].
  intros [->|Hin]%elem_of_cons; [by eapply match_m3u_entry_take|by eapply IH].
Qed.

Lemma newline_not_in_extinf (d : list ascii) :
  newline ∉ d -> newline ∉ chars "#EXTINF:" ++ d.
Proof.
  intros Hd [Hin|Hin]%elem_of_app; [|done].
  revert Hin. apply (bool_decide_unpack _). vm_compute. exact I.
Qed.

Lemma parse_m3u_entry_shape (source_file : string) (d u : list ascii) :
  newline ∉ d ->
  exists e,
    parse_m3u_entry source_file (chars "#EXTINF:" ++ d ++ newline :: u) = Some e
    /\ pe_original_extinf e = text (chars "#EXTINF:" ++ d)
    /\ pe_url e = text (py_strip u)
    /\ pe_source_file e = source_file
    /\ pe_tvg_id e =
         text (match search_attr "tvg-id" (chars "#EXTINF:" ++ d) with
               | Some v => py_strip v
               | None => []
               end).
Proof.
  intros Hd. unfold parse_m3u_entry.
  rewrite app_assoc.
  rewrite (find_char_first newline (chars "#EXTINF:" ++ d) u)
    by by apply newline_not_in_extinf.
  cbn [mbind option_bind].
  rewrite take_app_length.
  replace ((chars "#EXTINF:" ++ d) ++ newline :: u)
    with (((chars "#EXTINF:" ++ d) ++ [newline]) ++ u)
    by (by rewrite <- !app_assoc).
  rewrite drop_app_length' by (rewrite (length_app _ [newline]); simpl; lia).
  eexists. split; [done|]. by split_and!.
Qed.

Lemma parse_m3u_elem (source_file content : string) (entries : list PlaylistEntry)
    (e : PlaylistEntry) :
  parse_m3u source_file content = Some entries ->
  e ∈ entries ->
  exists d u,
    (newline ∉ d)
    /\ parse_m3u_entry source_file (chars "#EXTINF:" ++ d ++ newline :: u) = Some e.
Proof.
  unfold parse_m3u. intros Hall%mapM_Some_1 (i & Hi)%list_elem_of_lookup.
  destruct (Forall2_lookup_r _ _ _ _ _ Hall Hi) as (entry & Hentry & He).
  apply list_elem_of_lookup_2 in Hentry.
  apply findall_m3u_entries_shape in Hentry as (d & u & -> & Hd). eauto.
Qed.

Lemma strip_text_py_strip (v : list ascii) : strip (text (py_strip v)) = text (py_strip v).
Proof. unfold strip. by rewrite chars_text, py_strip_idemp. Qed.

(** The parser never raises on a decoded content: every entry it finds has
    a newline, so splitting it in two never fails. *)
Theorem parse_m3u_never_fails (source_file content : string) :
  is_Some (parse_m3u source_file content).
Proof.
  unfold parse_m3u. apply mapM_is_Some_2, Forall_forall. intros entry Hentry.
  apply findall_m3u_entries_shape in Hentry as (d & u & -> & Hd).
  destruct (parse_m3u_entry_shape source_file d u Hd) as (e & He & _).
  by exists e.
Qed.

(** Every text field that the parser extracts is stripped: the name, the
    URL, the identifier hint, the group label and the logo URL have no
    white space at either end. *)
Theorem parse_m3u_fields_stripped (source_file content : string)
    (entries : list PlaylistEntry) (e : PlaylistEntry) :
  parse_m3u source_file content = Some entries ->
  e ∈ entries ->
  strip (pe_name e) = pe_name e
  /\ strip (pe_url e) = pe_url e
  /\ strip (pe_tvg_id e) = pe_tvg_id e
  /\ strip (pe_group_title e) = pe_group_title e
  /\ strip (pe_tvg_logo e) = pe_tvg_logo e.
Proof.
  intros Hparse He.
  destruct (parse_m3u_elem _ _ _ _ Hparse He) as (d & u & _ & Hentry).
  unfold parse_m3u_entry in Hentry.
  destruct (find_char newline _) as [k|]; [|done]. cbn [mbind option_bind] in Hentry.
  injection Hentry as <-. cbn [pe_name pe_url pe_tvg_id pe_group_title pe_tvg_logo].
  split_and!; repeat case_match; apply strip_text_py_strip || reflexivity.
Qed.

(** The descriptor of every parsed entry is one line that begins with
    #EXTINF:, and the entry records the file it comes from. *)
Theorem parse_m3u_descriptor_line (source_file content : string)
    (entries : list PlaylistEntry) (e : PlaylistEntry) :
  parse_m3u source_file content = Some entries ->
  e ∈ entries ->
  pe_source_file e = source_file
  /\ exists d, chars (pe_original_extinf e) = chars "#EXTINF:" ++ d /\ newline ∉ d.
Proof.
  intros Hparse He.
  destruct (parse_m3u_elem _ _ _ _ Hparse He) as (d & u & Hd & Hentry).
  destruct (parse_m3u_entry_shape source_file d u Hd) as (e' & He' & Hline & _ & Hsrc & _).
  rewrite Hentry in He'. injection He' as <-.
  split; [done|]. exists d. by rewrite Hline, chars_text.
Qed.

Lemma match_attr_tvg_id (l v : list ascii) :
  match_attr "tvg-id" l = Some v -> is_Some (match_tvg_id l).
Proof.
  unfold match_attr, match_tvg_id.
  change (attr_open "tvg-id") with tvg_id_open.
  destruct (after_prefix tvg_id_open l) as [r|]; [|done]. cbn [mbind option_bind].
  destruct (quoted_body_len r) as [n|]; [|done]. cbn [mbind option_bind]. by eexists.
Qed.

Lemma search_attr_tvg_id (l v : list ascii) :
  search_attr "tvg-id" l = Some v -> has_tvg_id l = true.
Proof.
  induction l as [|c l IH]; [done|]. cbn [search_attr has_tvg_id].
  destruct (match_attr "tvg-id" (c :: l)) as [w|] eqn:Hm.
  - intros _. apply match_attr_tvg_id in Hm.
    by rewrite bool_decide_eq_true_2.
  - intros ->%IH. apply orb_true_r.
Qed.

(** An entry parsed with a hint that is not empty has an identifier
    attribute in the descriptor stored with it: the text tvg-id=, a
    double quote, any characters other than a double quote, and a double
    quote. *)
Theorem parse_m3u_hint_has_attribute (source_file content : string)
    (entries : list PlaylistEntry) (e : PlaylistEntry) :
  parse_m3u source_file content = Some entries ->
  e ∈ entries ->
  pe_tvg_id e <> "" ->
  has_tvg_id (chars (pe_original_extinf e)) = true.
Proof.
  intros Hparse He Hhint.
  destruct (parse_m3u_elem _ _ _ _ Hparse He) as (d & u & Hd & Hentry).
  destruct (parse_m3u_entry_shape source_file d u Hd)
    as (e' & He' & Hline & _ & _ & Hid).
  rewrite Hentry in He'. injection He' as <-.
  rewrite Hline, chars_text. rewrite Hid in Hhint.
  destruct (search_attr "tvg-id" (chars "#EXTINF:" ++ d)) as [v|] eqn:Hsearch; [|done].
  by eapply search_attr_tvg_id.
Qed.

(** *** Reading back a playlist written line by line *)

Lemma findall_m3u_entries_skip (n : nat) (l : list ascii) :
  findall_m3u_entries n l = findall_m3u_entries 0 (drop n l).
Proof.
  revert l. induction n as [|n IH]; intros l; [done|].
  destruct l as [|c l]; [done|]. cbn [findall_m3u_entries drop]. apply IH.
Qed.

Lemma match_m3u_entry_nil : match_m3u_entry [] = None.
Proof. reflexivity. Qed.

Lemma findall_m3u_entries_match (l : list ascii) (n : nat) :
  match_m3u_entry l = Some n ->
  (0 < n)%nat ->
  findall_m3u_entries 0 l = take n l :: findall_m3u_entries 0 (drop n l).
Proof.
  destruct l as [|c l]; [by rewrite match_m3u_entry_nil|]. intros Hm Hn.
  cbn [findall_m3u_entries]. rewrite Hm. f_equal. rewrite findall_m3u_entries_skip.
  destruct n as [|n]; [lia|]. cbn [drop]. by replace (S n - 1)%nat with n by lia.
Qed.

Lemma match_m3u_entry_head (c : ascii) (l : list ascii) :
  is_Some (match_m3u_entry (c :: l)) -> c = "#"%char.
Proof.
  intros [n (d & rest & Heq & _)%match_m3u_entry_Some]. by injection Heq.
Qed.

Lemma findall_m3u_entries_skip_newline (l : list ascii) :
  findall_m3u_entries 0 (newline :: l) = findall_m3u_entries 0 l.
Proof.
  cbn [findall_m3u_entries].
  destruct (match_m3u_entry (newline :: l)) as [n|] eqn:Hm; [|done].
  assert (newline = "#"%char) by (apply (match_m3u_entry_head _ l); by eexists).
  done.
Qed.

Lemma findall_m3u_entries_skip_header (l : list ascii) :
  findall_m3u_entries 0 (chars "#EXTM3U" ++ newline :: l) = findall_m3u_entries 0 l.
Proof. reflexivity. Qed.

Lemma match_m3u_entry_line (d w : list ascii) :
  newline ∉ d ->
  match_m3u_entry (chars "#EXTINF:" ++ d ++ newline :: w)
  = Some (length (chars "#EXTINF:") + length d + 1 + entry_rest_len w)%nat.
Proof.
  intros Hd. unfold match_m3u_entry. rewrite after_prefix_app. cbn [mbind option_bind].
  rewrite (find_char_first _ _ _ Hd). cbn [mbind option_bind]. do 2 f_equal.
  replace (d ++ newline :: w) with ((d ++ [newline]) ++ w) by (by rewrite <- app_assoc).
  rewrite drop_app_length'; [done|]. by rewrite length_app.
Qed.

Lemma entry_rest_len_before_entry (u x : list ascii) :
  newline ∉ u ->
  entry_rest_len (u ++ newline :: chars "#EXTINF:" ++ x) = length u.
Proof.
  induction u as [|c u IH]; intros Hu.
  - cbn [app entry_rest_len]. rewrite bool_decide_eq_true_2; [done|].
    change (newline :: chars "#EXTINF:" ++ x) with ((newline :: chars "#EXTINF:") ++ x).
    rewrite after_prefix_app. by eexists.
  - apply not_elem_of_cons in Hu as [Hc Hu]. cbn [app entry_rest_len length].
    rewrite bool_decide_eq_false_2; [by rewrite IH|].
    intros [r Hr]. apply after_prefix_Some in Hr. injection Hr as Hr _. congruence.
Qed.

Lemma entry_rest_len_to_end (u : list ascii) :
  newline ∉ u -> entry_rest_len (u ++ [newline]) = S (length u).
Proof.
  induction u as [|c u IH]; intros Hu; [done|].
  apply not_elem_of_cons in Hu as [Hc Hu]. cbn [app entry_rest_len length].
  rewrite bool_decide_eq_false_2; [by rewrite IH|].
  intros [r Hr]. apply after_prefix_Some in Hr. injection Hr as Hr _. congruence.
Qed.

Lemma rstrip_trailing_newline (a : list ascii) : rstrip (a ++ [newline]) = rstrip a.
Proof.
  induction a as [|x a IH]; [done|]. cbn [app]. by rewrite !rstrip_cons, IH.
Qed.

Lemma lstrip_trailing_newline (u : list ascii) :
  lstrip (u ++ [newline]) = lstrip u ++ [newline]
  \/ (lstrip (u ++ [newline]) = [] /\ lstrip u = []).
Proof.
  induction u as [|c u IH]; [by right|]. cbn [app lstrip].
  destruct (is_space c); [done|by left].
Qed.

Lemma py_strip_trailing_newline (u : list ascii) : py_strip (u ++ [newline]) = py_strip u.
Proof.
  unfold py_strip. destruct (lstrip_trailing_newline u) as [-> | [-> ->]]; [|done].
  apply rstrip_trailing_newline.
Qed.

Lemma parse_m3u_entry_trailing_newline (source_file : string) (d u : list ascii) :
  newline ∉ d ->
  parse_m3u_entry source_file (chars "#EXTINF:" ++ d ++ newline :: u ++ [newline])
  = parse_m3u_entry source_file (chars "#EXTINF:" ++ d ++ newline :: u).
Proof.
  intros Hd. unfold parse_m3u_entry.
  rewrite !(app_assoc (chars "#EXTINF:") d).
  rewrite !(find_char_first newline (chars "#EXTINF:" ++ d))
    by by apply newline_not_in_extinf.
  cbn [mbind option_bind]. rewrite !take_app_length.
  replace ((chars "#EXTINF:" ++ d) ++ newline :: u ++ [newline])
    with (((chars "#EXTINF:" ++ d) ++ [newline]) ++ u ++ [newline])
    by (by rewrite <- !app_assoc).
  replace ((chars "#EXTINF:" ++ d) ++ newline :: u)
    with (((chars "#EXTINF:" ++ d) ++ [newline]) ++ u)
    by (by rewrite <- !app_assoc).
  rewrite !drop_app_length' by (rewrite (length_app _ [newline]); simpl; lia).
  by rewrite py_strip_trailing_newline.
Qed.

Lemma lines_text_pair (p : string * string) (pairs : list (string * string)) :
  lines_text (pair_lines (p :: pairs))
  = chars p.1 ++ newline :: chars p.2 ++ newline :: lines_text (pair_lines pairs).
Proof.
  unfold lines_text, pair_lines. cbn [flat_map app map concat].
  by rewrite <- !app_assoc.
Qed.

Lemma parse_pairs_text (source_file : string) (pairs : list (string * string)) :
  Forall line_pair pairs ->
  mapM (parse_m3u_entry source_file)
       (findall_m3u_entries 0 (lines_text (pair_lines pairs)))
  = mapM (parse_m3u_entry source_file)
         (map (fun p => chars p.1 ++ newline :: chars p.2) pairs).
Proof.
  induction 1 as [|p pairs [(d & Hp & Hd) Hu] Hrest IH]; [done|].
  rewrite lines_text_pair, Hp. rewrite <- !app_assoc.
  rewrite (findall_m3u_entries_match _ _ (match_m3u_entry_line d _ Hd)) by (simpl; lia).
  destruct Hrest as [|p2 pairs2 [(d2 & Hp2 & Hd2) Hu2] Hrest].
  - change (lines_text (pair_lines [])) with (@nil ascii) in *.
    rewrite entry_rest_len_to_end by done.
    rewrite take_ge, drop_ge by (rewrite !length_app; simpl; rewrite !length_app; simpl; lia).
    cbn [findall_m3u_entries map mapM].
    by rewrite parse_m3u_entry_trailing_newline, Hp, <- app_assoc.
  - rewrite lines_text_pair in IH |- *. rewrite Hp2 in IH |- *.
    rewrite <- !app_assoc in IH |- *.
    rewrite entry_rest_len_before_entry by done.
    set (rest := chars "#EXTINF:" ++ d2 ++ newline :: chars p2.2
                   ++ newline :: lines_text (pair_lines pairs2)) in *.
    replace (chars "#EXTINF:" ++ d ++ newline :: chars p.2 ++ newline :: rest)
      with ((chars "#EXTINF:" ++ d ++ newline :: chars p.2) ++ newline :: rest)
      by (rewrite <- !app_assoc; reflexivity).
    rewrite take_app_length', drop_app_length'
      by (rewrite ?length_app; cbn [length]; rewrite ?length_app; cbn [length]; lia).
    rewrite findall_m3u_entries_skip_newline.
    cbn [map mapM]. rewrite IH. by rewrite Hp, <- !app_assoc.
Qed.

Lemma parse_pairs_entries (source_file : string) (pairs : list (string * string)) :
  Forall line_pair pairs ->
  exists entries,
    mapM (parse_m3u_entry source_file)
         (map (fun p => chars p.1 ++ newline :: chars p.2) pairs) = Some entries
    /\ map (fun e => (pe_original_extinf e, pe_url e)) entries
       = map (fun p => (p.1, strip p.2)) pairs.
Proof.
  induction 1 as [|p pairs [(d & Hp & Hd) Hu] _ (entries & Hentries & Hmap)].
  - by exists [].
  - destruct (parse_m3u_entry_shape source_file d (chars p.2) Hd)
      as (e & He & Hline & Hurl & _).
    exists (e :: entries). cbn [map mapM]. rewrite Hp, <- app_assoc, He, Hentries.
    split; [done|]. cbn [map]. rewrite Hmap, Hline, Hurl, <- Hp, text_chars. done.
Qed.

Lemma parse_m3u_pairs (source_file : string) (pairs : list (string * string)) :
  Forall line_pair pairs ->
  exists entries,
    parse_m3u source_file (file_text ("#EXTM3U" :: pair_lines pairs)) = Some entries
    /\ map (fun e => (pe_original_extinf e, pe_url e)) entries
       = map (fun p => (p.1, strip p.2)) pairs.
Proof.
  intros Hpairs.
  destruct (parse_pairs_entries source_file pairs Hpairs) as (entries & Hentries & Hmap).
  exists entries. split; [|done].
  unfold parse_m3u, file_text. rewrite chars_text.
  change (concat (map (fun line => chars line ++ [newline]) ("#EXTM3U" :: pair_lines pairs)))
    with (chars "#EXTM3U" ++ newline :: lines_text (pair_lines pairs)).
  rewrite findall_m3u_entries_skip_header. by rewrite parse_pairs_text.
Qed.

(** A playlist file made of the header line and of descriptor and URL line
    pairs parses back to exactly those pairs, in order: each entry has the
    descriptor as written and the URL stripped. *)
Theorem parse_m3u_reads_back (source_file : string) (pairs : list (string * string)) :
  Forall line_pair pairs ->
  exists entries,
    parse_m3u source_file (file_text ("#EXTM3U" :: pair_lines pairs)) = Some entries
    /\ map (fun e => (pe_original_extinf e, pe_url e)) entries
       = map (fun p => (p.1, strip p.2)) pairs
    /\ length entries = length pairs.
Proof.
  intros Hpairs.
  destruct (parse_m3u_pairs source_file pairs Hpairs) as (entries & Hparse & Hmap).
  exists entries. split_and!; [done..|].
  by rewrite <- (length_map (fun e => (pe_original_extinf e, pe_url e))), Hmap, length_map.
Qed.

(** ** Parser and engine together *)

Lemma parse_m3u_hint_stripped (source_file content : string)
    (entries : list PlaylistEntry) (e : PlaylistEntry) :
  parse_m3u source_file content = Some entries ->
  e ∈ entries ->
  strip (pe_tvg_id e) = pe_tvg_id e.
Proof.
  intros Hparse He.
  destruct (parse_m3u_elem _ _ _ _ Hparse He) as (d & u & Hd & Hentry).
  destruct (parse_m3u_entry_shape source_file d u Hd) as (e' & He' & _ & _ & _ & Hid).
  rewrite Hentry in He'. injection He' as <-. rewrite Hid.
  case_match; [apply strip_text_py_strip|reflexivity].
Qed.

Section ParserAndEngine.

Variable fuzz_ratio : string -> string -> Z.
Variable set_order : gset string -> list string.

(** For a playlist that comes from the parser, identifier continuity looks
    the hint up as it stands: an entry whose hint is not empty and is a key
    of the identifier index is associated with the channel stored under
    the hint, with score 100. *)
Theorem parsed_hint_continuity
    (source_file content : string) (m3u_channels : list PlaylistEntry)
    (xmltv_channels : list Channel) (threshold : Z) (progress_callback : bool)
    (i : nat) (e : PlaylistEntry) (ch : Channel) :
  parse_m3u source_file content = Some m3u_channels ->
  m3u_channels !! i = Some e ->
  pe_tvg_id e <> "" ->
  channels_by_id_of xmltv_channels !! Some (pe_tvg_id e) = Some ch ->
  auto_match_channels fuzz_ratio set_order m3u_channels xmltv_channels
    threshold true progress_callback !! i =
  Some {| m3u_data := e; xmltv_match := Some ch; score := 100;
          selected := bool_decide (threshold <= 100) |}.
Proof using Type.
  intros Hparse He Hhint Hch.
  assert (Hs : strip (pe_tvg_id e) = pe_tvg_id e).
  { eapply parse_m3u_hint_stripped; [exact Hparse|]. by eapply list_elem_of_lookup_2. }
  rewrite auto_match_channels_spec by by eapply channels_by_id_of_nonempty.
  rewrite list_lookup_fmap, He. cbn [fmap option_fmap option_map]. f_equal.
  unfold entry_result, match_entry. rewrite build_xmltv_indices_eq.
  assert (id_rule_applies (dict_of ch_id xmltv_channels) true e = true) as ->.
  { apply id_rule_applies_true. rewrite Hs. split_and!; [done..|].
    unfold channels_by_id_of in Hch. rewrite build_xmltv_indices_eq in Hch.
    by eexists. }
  unfold channels_by_id_of in Hch. rewrite build_xmltv_indices_eq in Hch.
  cbn [fst snd] in Hch |- *. by rewrite Hs, Hch.
Qed.

End ParserAndEngine.

(** ** Reading back the playlist written *)

Lemma universal_newlines_id (l : list ascii) : cr ∉ l -> universal_newlines l = l.
Proof.
  induction l as [|c l IH]; [done|]. intros [Hc Hl]%not_elem_of_cons.
  cbn [universal_newlines]. rewrite decide_False by done. by rewrite IH.
Qed.

Lemma rstrip_elem (x : ascii) (l : list ascii) : x ∈ rstrip l -> x ∈ l.
Proof.
  induction l as [|c l IH]; [done|]. rewrite rstrip_cons.
  destruct (rstrip l) as [|y t] eqn:Hr.
  - destruct (is_space c); [by intros ?%elem_of_nil|]. set_solver.
  - set_solver.
Qed.

Lemma rstrip_app_nonspace (a : list ascii) (c : ascii) (z : list ascii) :
  is_space c = false -> rstrip (a ++ c :: z) = a ++ c :: rstrip z.
Proof.
  intros Hc. assert (H : rstrip (c :: z) = c :: rstrip z).
  { rewrite rstrip_cons. destruct (rstrip z); [by rewrite Hc|done]. }
  rewrite rstrip_app_keep; rewrite H; done.
Qed.

Lemma py_strip_descriptor (z : list ascii) :
  py_strip (chars "#EXTINF:" ++ z) = chars "#EXTINF:" ++ rstrip z.
Proof.
  unfold py_strip.
  change (lstrip (chars "#EXTINF:" ++ z)) with (chars "#EXTINF" ++ ":"%char :: z).
  by rewrite rstrip_app_nonspace.
Qed.

Lemma re_sub_tvg_id_elem (x : ascii) (repl : list ascii) (n : nat) (l : list ascii) :
  x ∈ re_sub_tvg_id repl n l -> x ∈ repl \/ x ∈ l.
Proof.
  revert n. induction l as [|c l IH]; intros n; [by intros ?%elem_of_nil|].
  cbn [re_sub_tvg_id]. destruct n as [|n].
  - destruct (match_tvg_id (c :: l)) as [m|].
    + intros [Hx|Hx]%elem_of_app; [by left|]. destruct (IH _ Hx); set_solver.
    + intros [->|Hx]%elem_of_cons; [set_solver|]. destruct (IH _ Hx); set_solver.
  - intros Hx. destruct (IH _ Hx); set_solver.
Qed.

Lemma re_sub_extinf_first_elem (x : ascii) (ins l : list ascii) :
  x ∈ re_sub_extinf_first ins l -> x ∈ ins \/ x ∈ l.
Proof.
  induction l as [|c l IH]; [by intros ?%elem_of_nil|].
  cbn [re_sub_extinf_first]. destruct (match_extinf (c :: l)) as [n|].
  - pose proof (subseteq_take n (c :: l)). pose proof (subseteq_drop n (c :: l)).
    set_solver.
  - set_solver.
Qed.

Lemma match_extinf_Some (l : list ascii) (n : nat) :
  match_extinf l = Some n ->
  (exists r, l = chars "#EXTINF:" ++ r) /\ (length (chars "#EXTINF:") <= n)%nat.
Proof.
  unfold match_extinf.
  destruct (after_prefix (chars "#EXTINF:") l) as [r|] eqn:Hr; [|done].
  cbn [mbind option_bind]. apply after_prefix_Some in Hr. intros H.
  split; [by exists r|]. repeat case_match; simplify_eq; lia.
Qed.

Lemma re_sub_extinf_first_skip_prefix (ins pre l : list ascii) :
  Forall (fun c => c <> "#"%char) pre ->
  re_sub_extinf_first ins (pre ++ l) = pre ++ re_sub_extinf_first ins l.
Proof.
  induction 1 as [|c pre Hc _ IH]; [done|]. cbn [app re_sub_extinf_first].
  destruct (match_extinf (c :: pre ++ l)) as [n|] eqn:Hm; [|by rewrite IH].
  apply match_extinf_Some in Hm as [[r Hr] _]. simpl in Hr. congruence.
Qed.

Lemma re_sub_extinf_first_descriptor (ins x : list ascii) :
  exists y, re_sub_extinf_first ins (chars "#EXTINF:" ++ x) = chars "#EXTINF:" ++ y.
Proof.
  destruct (match_extinf (chars "#EXTINF:" ++ x)) as [n|] eqn:Hm.
  - rewrite (re_sub_extinf_first_head _ _ _ Hm).
    apply match_extinf_Some in Hm as [_ Hn].
    rewrite take_app, (take_ge (chars "#EXTINF:")) by done.
    rewrite <- app_assoc. eauto.
  - change (chars "#EXTINF:" ++ x) with ("#"%char :: chars "EXTINF:" ++ x) in *.
    cbn [re_sub_extinf_first]. rewrite Hm.
    rewrite re_sub_extinf_first_skip_prefix by (repeat constructor; done). eauto.
Qed.

Lemma rfind_lookup (c : ascii) (l : list ascii) (k : nat) :
  rfind c l = Some k -> l !! k = Some c.
Proof.
  revert k. induction l as [|x l IH]; intros k; [done|]. cbn [rfind].
  destruct (rfind c l) as [i|].
  - intros [= <-]. by apply IH.
  - destruct (decide (x = c)) as [->|]; [|done]. by intros [= <-].
Qed.

Lemma take_comma_descriptor (k : nat) (y : list ascii) :
  (chars "#EXTINF:" ++ y) !! k = Some comma ->
  exists j, take (k + 1) (chars "#EXTINF:" ++ y) = chars "#EXTINF:" ++ take j y.
Proof.
  intros Hk. assert (8 <= k)%nat.
  { destruct (decide (8 <= k)%nat); [done|]. exfalso.
    do 8 (destruct k as [|k]; [simpl in Hk; discriminate|]). lia. }
  rewrite take_app, take_ge by (simpl; lia). eauto.
Qed.

Lemma lstrip_elem (x : ascii) (l : list ascii) : x ∈ lstrip l -> x ∈ l.
Proof.
  induction l as [|c l IH]; [done|]. cbn [lstrip]. destruct (is_space c); set_solver.
Qed.

(** The rewritten descriptor holds no character that is not in the
    descriptor, the identifier, the display name or the attribute text. *)
Lemma rewrite_extinf_elem (original : string) (id : option string)
    (display_name generated : string) (x : ascii) :
  rewrite_extinf original id display_name = Some generated ->
  x ∈ chars generated ->
  x ∈ chars original \/ x ∈ id_text id \/ x ∈ chars display_name
  \/ x ∈ space :: tvg_id_open ++ [dquote].
Proof.
  unfold rewrite_extinf. cbv zeta.
  destruct (contains [backslash] (id_text id)); [done|]. intros [= <-].
  rewrite chars_text. unfold py_strip. intros Hx%rstrip_elem%lstrip_elem.
  set (attr := tvg_id_attr (id_text id)) in *.
  set (l1 := re_sub_tvg_id attr 0 (chars original)) in *.
  set (l2 := if contains attr l1 then l1 else re_sub_extinf_first (space :: attr) l1) in *.
  assert (Hattr : x ∈ space :: attr ->
            x ∈ id_text id \/ x ∈ space :: tvg_id_open ++ [dquote]).
  { unfold attr, tvg_id_attr. set_solver. }
  assert (H1 : x ∈ l1 ->
            x ∈ chars original \/ x ∈ id_text id \/ x ∈ space :: tvg_id_open ++ [dquote]).
  { intros [H|H]%re_sub_tvg_id_elem; [|by left]. right. apply Hattr. by right. }
  assert (H2 : x ∈ l2 ->
            x ∈ chars original \/ x ∈ id_text id \/ x ∈ space :: tvg_id_open ++ [dquote]).
  { unfold l2. destruct (contains attr l1); [done|].
    intros [H|H]%re_sub_extinf_first_elem; auto. }
  destruct (rfind comma l2) as [k|]; [|tauto].
  apply elem_of_app in Hx as [Hx|Hx]; [|tauto].
  apply (subseteq_take (k + 1) l2) in Hx. tauto.
Qed.

(** A descriptor that begins with #EXTINF: still does after the rewrite. *)
Lemma rewrite_extinf_prefix (original : string) (id : option string)
    (display_name generated : string) :
  is_Some (after_prefix (chars "#EXTINF:") (chars original)) ->
  rewrite_extinf original id display_name = Some generated ->
  is_Some (after_prefix (chars "#EXTINF:") (chars generated)).
Proof.
  intros [d Hd%after_prefix_Some]. unfold rewrite_extinf. cbv zeta.
  destruct (contains [backslash] (id_text id)); [done|]. intros [= <-].
  rewrite chars_text, Hd.
  rewrite (re_sub_tvg_id_skip_prefix _ (chars "#EXTINF:")) by (repeat constructor; done).
  set (attr := tvg_id_attr (id_text id)).
  set (d1 := re_sub_tvg_id attr 0 d).
  assert (exists y, (if contains attr (chars "#EXTINF:" ++ d1) then chars "#EXTINF:" ++ d1
                     else re_sub_extinf_first (space :: attr) (chars "#EXTINF:" ++ d1))
                    = chars "#EXTINF:" ++ y) as [y ->].
  { destruct (contains _ _); [by eexists|apply re_sub_extinf_first_descriptor]. }
  destruct (rfind comma (chars "#EXTINF:" ++ y)) as [k|] eqn:Hk.
  - apply rfind_lookup in Hk. destruct (take_comma_descriptor k y Hk) as [j ->].
    rewrite <- app_assoc, py_strip_descriptor, after_prefix_app. by eexists.
  - rewrite py_strip_descriptor, after_prefix_app. by eexists.
Qed.

Lemma Forall2_of_map_eq {A B C : Type} (f : A -> C) (g : B -> C)
    (l : list A) (k : list B) :
  map f l = map g k -> Forall2 (fun a b => f a = g b) l k.
Proof.
  revert k. induction l as [|a l IH]; intros [|b k]; try done.
  intros [= Hab Hrest]. constructor; auto.
Qed.

Lemma one_line_lines_text (lines : list string) :
  Forall (fun line => cr ∉ chars line) lines -> cr ∉ lines_text lines.
Proof.
  unfold lines_text. induction 1 as [|line lines Hline _ IH]; [by intros ?%elem_of_nil|].
  cbn [map concat]. rewrite !elem_of_app, list_elem_of_singleton.
  intros [[?|?]|?]; done.
Qed.

Lemma rewrite_extinf_one_line (original : string) (id : option string)
    (display_name generated : string) :
  one_line (chars original) ->
  one_line (id_text id) ->
  one_line (chars display_name) ->
  rewrite_extinf original id display_name = Some generated ->
  one_line (chars generated).
Proof.
  intros [Ho1 Ho2] [Hi1 Hi2] [Hd1 Hd2] Hgen.
  split; intros Hx; destruct (rewrite_extinf_elem _ _ _ _ _ Hgen Hx) as [?|[?|[?|H]]];
    try done; revert H; apply (bool_decide_unpack _); vm_compute; exact I.
Qed.

Lemma generate_m3u_lines_pairs (processed_channels_data : list MatchResult)
    (lines : list string) (count : nat) :
  Forall two_lines (filter written processed_channels_data) ->
  generate_m3u_lines processed_channels_data = Some (lines, count) ->
  exists pairs,
    lines = pair_lines pairs
    /\ count = length pairs
    /\ Forall (fun p => is_Some (after_prefix (chars "#EXTINF:") (chars p.1))
                        /\ one_line (chars p.1) /\ one_line (chars p.2)) pairs
    /\ Forall2 (fun p item =>
         p.2 = pe_url (m3u_data item)
         /\ exists xmltv,
              xmltv_match item = Some xmltv
              /\ rewrite_extinf (pe_original_extinf (m3u_data item)) (ch_id xmltv)
                   (ch_display_name xmltv) = Some p.1)
         pairs (filter written processed_channels_data).
Proof.
  revert lines count.
  induction processed_channels_data as [|item rest IH]; intros lines count Hall.
  - intros [= <- <-]. by exists [].
  - destruct (decide (written item)) as [Hw|Hw].
    + rewrite filter_cons_True in Hall |- * by done.
      apply Forall_cons in Hall as [(Hpre & Ho & Hu & Hx) Hall].
      cbn [generate_m3u_lines]. destruct Hw as [-> [xmltv Hm]]. rewrite Hm.
      destruct (Hx xmltv Hm) as [Hid Hdn].
      destruct (rewrite_extinf _ _ _) as [new_extinf|] eqn:Hgen; [|done].
      cbn [mbind option_bind].
      destruct (generate_m3u_lines rest) as [[lines' count']|]; [|done].
      cbn [mbind option_bind]. intros [= <- <-].
      destruct (IH lines' count' Hall eq_refl) as (pairs & -> & -> & Hpairs & Hitems).
      exists ((new_extinf, pe_url (m3u_data item)) :: pairs).
      split_and!; [done|done| |].
      * constructor; [|done]. cbn [fst snd]. split_and!; [|exact (rewrite_extinf_one_line _ _ _ _ Ho Hid Hdn Hgen)|done].
        exact (rewrite_extinf_prefix _ _ _ _ Hpre Hgen).
      * constructor; [|done]. cbn [fst snd]. split; [done|]. by exists xmltv.
    + rewrite filter_cons_False in Hall |- * by done.
      rewrite generate_m3u_lines_skip by done. by apply IH.
Qed.

Lemma generate_m3u_parse (source_file : string)
    (processed_channels_data : list MatchResult) (lines : list string) (count : nat) :
  Forall two_lines (filter written processed_channels_data) ->
  generate_m3u processed_channels_data = Some (lines, count) ->
  exists entries,
    parse_m3u source_file (read_text (file_text lines)) = Some entries
    /\ length entries = count
    /\ Forall2 (fun e item =>
         pe_url e = strip (pe_url (m3u_data item))
         /\ exists xmltv,
              xmltv_match item = Some xmltv
              /\ rewrite_extinf (pe_original_extinf (m3u_data item)) (ch_id xmltv)
                   (ch_display_name xmltv) = Some (pe_original_extinf e))
         entries (filter written processed_channels_data).
Proof.
  intros Hall. unfold generate_m3u.
  destruct (generate_m3u_lines processed_channels_data) as [[lines' count']|] eqn:Hl;
    [|done].
  cbn [mbind option_bind]. intros [= <- <-].
  destruct (generate_m3u_lines_pairs _ _ _ Hall Hl) as (pairs & -> & -> & Hpairs & Hitems).
  assert (Hlp : Forall line_pair pairs).
  { eapply Forall_impl; [exact Hpairs|]. intros p ([d Hd%after_prefix_Some] & [Hn _] & [Hu _]).
    split; [|done]. exists d. split; [done|]. rewrite Hd in Hn. set_solver. }
  assert (Hread : read_text (file_text ("#EXTM3U" :: pair_lines pairs))
                  = file_text ("#EXTM3U" :: pair_lines pairs)).
  { unfold read_text, file_text. rewrite chars_text. f_equal.
    apply universal_newlines_id.
    apply (one_line_lines_text ("#EXTM3U" :: pair_lines pairs)).
    constructor; [apply (bool_decide_unpack _); vm_compute; exact I|].
    unfold pair_lines. clear -Hpairs. induction Hpairs as [|p pairs (_ & [_ H1] & [_ H2]) _ IH];
      [constructor|]. cbn [flat_map app]. by repeat constructor. }
  rewrite Hread.
  destruct (parse_m3u_pairs source_file pairs Hlp) as (entries & Hparse & Hmap).
  exists entries. split_and!; [done| |].
  - by rewrite <- (length_map (fun e => (pe_original_extinf e, pe_url e))), Hmap, length_map.
  - apply Forall2_of_map_eq in Hmap.
    eapply Forall2_trans; [|exact Hmap|exact Hitems].
    intros e p item [= He Hu] [Hp (xmltv & Hm & Hgen)]. cbn [fst snd] in *.
    split; [by rewrite Hu, Hp|]. exists xmltv. by rewrite He.
Qed.




(** ** Name normaliser and token index *)

Lemma single_spaced_spaces (b : bool) (l : list ascii) :
  single_spaced b l = true -> Forall (fun c => is_space c = true -> c = space) l.
Proof.
  revert b. induction l as [|c l IH]; intros b; [done|]. cbn [single_spaced].
  destruct (is_space c) eqn:Hc.
  - intros [[Hsp%bool_decide_eq_true _]%andb_prop Hl]%andb_prop.
    constructor; [done|by eapply IH].
  - intros Hl. constructor; [by rewrite Hc|by eapply IH].
Qed.

(** A normalised name is made of the letters a to z, the digits and single
    space characters, with no space at either end. *)
Theorem normalize_name_shape (name : string) :
  let n := chars (normalize_name name) in
  Forall (fun c => is_lower_az c = true \/ is_digit c = true \/ c = space) n
  /\ single_spaced false n = true
  /\ strip (normalize_name name) = normalize_name name.
Proof.
  unfold normalize_name, strip. rewrite chars_text. cbv zeta.
  destruct (normalize_chars_shape (chars name)) as (Hk & Hs & Hst).
  split_and!; [|done|by rewrite Hst].
  pose proof (single_spaced_spaces _ _ Hs) as Hsp.
  rewrite Forall_forall in Hk, Hsp |- *. intros c Hin.
  pose proof (Hk c Hin) as Hc. unfold kept in Hc.
  apply orb_prop in Hc as [[?|?]%orb_prop|?]; auto.
Qed.

(** The token index answers, for a token, the primary display names of
    the guide channels whose normalised name holds the token as a word of
    more than one character. *)
Theorem token_index_characterised (xmltv_channels : list Channel) (token x : string) :
  x ∈ names_of (token_index_of xmltv_channels) token
  <-> exists ch, ch ∈ xmltv_channels /\ ch_display_name ch = x
                 /\ token ∈ py_split (normalize_name x) /\ long_token token.
Proof. apply token_index_spec. Qed.

(** ** The identifier written is the hint read back *)

Lemma parse_m3u_hint_of_descriptor (source_file content : string)
    (entries : list PlaylistEntry) (e : PlaylistEntry) :
  parse_m3u source_file content = Some entries ->
  e ∈ entries ->
  pe_tvg_id e =
  text (match search_attr "tvg-id" (chars (pe_original_extinf e)) with
        | Some v => py_strip v
        | None => []
        end).
Proof.
  intros Hparse He.
  destruct (parse_m3u_elem _ _ _ _ Hparse He) as (d & u & Hd & Hentry).
  destruct (parse_m3u_entry_shape source_file d u Hd)
    as (e' & He' & Hline & _ & _ & Hid).
  rewrite Hentry in He'. injection He' as <-. by rewrite Hid, Hline, chars_text.
Qed.

Lemma search_attr_skip_prefix (pre l : list ascii) :
  Forall (fun c => c <> "t"%char) pre ->
  search_attr "tvg-id" (pre ++ l) = search_attr "tvg-id" l.
Proof.
  induction 1 as [|c pre Hc _ IH]; [done|]. cbn [app search_attr].
  destruct (match_attr "tvg-id" (c :: pre ++ l)) as [v|] eqn:Hm; [|done].
  exfalso. apply Hc. apply (match_tvg_id_head c (pre ++ l)).
  by eapply match_attr_tvg_id.
Qed.

Lemma match_attr_tvg_id_attr (ident rest : list ascii) :
  ident <> [] ->
  dquote ∉ ident ->
  match_attr "tvg-id" (tvg_id_attr ident ++ rest) = Some ident.
Proof.
  intros Hne Hq. unfold match_attr, tvg_id_attr.
  change (attr_open "tvg-id") with tvg_id_open.
  rewrite <- !app_assoc, after_prefix_app. cbn [mbind option_bind app].
  rewrite quoted_body_len_body by done. cbn [mbind option_bind].
  destruct ident as [|c ident]; [done|]. cbn [length Nat.eqb].
  by rewrite (take_app_length (c :: ident)).
Qed.

Lemma search_attr_written (sign digits ident rest : list ascii) :
  sign = [] \/ sign = [minus] ->
  Forall (fun c => is_digit c = true) digits ->
  ident <> [] ->
  dquote ∉ ident ->
  search_attr "tvg-id"
    (extinf_field sign digits ++ space :: tvg_id_attr ident ++ rest) = Some ident.
Proof.
  intros Hsign Hd Hne Hq.
  change (extinf_field sign digits ++ space :: tvg_id_attr ident ++ rest)
    with (extinf_field sign digits ++ [space] ++ tvg_id_attr ident ++ rest).
  rewrite app_assoc, search_attr_skip_prefix.
  - pose proof (match_attr_tvg_id_attr ident rest Hne Hq) as Hm.
    unfold tvg_id_attr, tvg_id_open in Hm |- *. cbn [chars list_ascii_of_string app] in Hm |- *.
    cbn [search_attr]. by rewrite Hm.
  - unfold extinf_field. rewrite !Forall_app. split_and!.
    + by repeat constructor.
    + destruct Hsign as [-> | ->]; by repeat constructor.
    + eapply Forall_impl; [exact Hd|]. by intros c Hc ->.
    + by repeat constructor.
Qed.

(** An inserted identifier is read back as the hint, under these
    conditions.  The result is selected and associated with a channel
    whose identifier is present, not empty and holds neither backslash
    nor double quote, and whose display name has no white space at
    either end.  Its descriptor is #EXTINF:, an optional minus sign, at
    least one digit, then text that does not begin with a digit, a comma
    and a name without comma, and it holds no identifier attribute.
    Neither the descriptor, the URL, the identifier nor the display name
    holds a line break.  Then the generator succeeds on this one result
    with count 1: it writes the header, the descriptor with the
    identifier attribute inserted after the digits and the name replaced
    by the display name, and the URL.  Parsing the file written gives
    exactly one entry, whose descriptor is the descriptor written, whose
    hint is the stripped identifier and whose URL is the stripped URL of
    the result. *)
Theorem inserted_identifier_is_read_back
    (source_file : string) (item : MatchResult) (xmltv : Channel) (id : string)
    (sign digits attrs name : list ascii) :
  selected item = true ->
  xmltv_match item = Some xmltv ->
  ch_id xmltv = Some id ->
  chars (pe_original_extinf (m3u_data item))
    = extinf_field sign digits ++ attrs ++ comma :: name ->
  sign = [] \/ sign = [minus] ->
  digits <> [] ->
  Forall (fun c => is_digit c = true) digits ->
  starts_with_digit attrs = false ->
  has_tvg_id (chars (pe_original_extinf (m3u_data item))) = false ->
  comma ∉ name ->
  id <> "" ->
  backslash ∉ chars id ->
  dquote ∉ chars id ->
  strip (ch_display_name xmltv) = ch_display_name xmltv ->
  two_lines item ->
  let generated :=
    text (extinf_field sign digits ++ space :: tvg_id_attr (chars id)
            ++ attrs ++ comma :: chars (ch_display_name xmltv)) in
  let lines := ["#EXTM3U"; generated; pe_url (m3u_data item)] in
  exists e,
    generate_m3u [item] = Some (lines, 1%nat)
    /\ parse_m3u source_file (read_text (file_text lines)) = Some [e]
    /\ pe_original_extinf e = generated
    /\ pe_tvg_id e = strip id
    /\ pe_url e = strip (pe_url (m3u_data item)).
Proof.
  intros Hsel Hmatch Hid Horig Hsign Hne Hd Hattrs Hno Hname Hid_ne Hbs Hq Hstrip Htwo.
  cbv zeta.
  assert (Hw : filter written [item] = [item]).
  { rewrite filter_cons_True; [done|]. split; [done|by eexists]. }
  pose proof (rewrite_extinf_no_id _ (ch_id xmltv) (ch_display_name xmltv)
                sign digits attrs name Horig Hsign Hne Hd Hattrs Hno Hname) as Hgen.
  rewrite Hid in Hgen. specialize (Hgen Hbs Hstrip). cbn [id_text] in Hgen.
  set (generated := extinf_field sign digits ++ space :: tvg_id_attr (chars id)
                      ++ attrs ++ comma :: chars (ch_display_name xmltv)) in *.
  assert (Hlines : generate_m3u [item]
            = Some (["#EXTM3U"; text generated; pe_url (m3u_data item)], 1%nat)).
  { unfold generate_m3u. cbn [generate_m3u_lines]. by rewrite Hsel, Hmatch, Hid, Hgen. }
  destruct (generate_m3u_parse source_file [item] _ _
              ltac:(rewrite Hw; by constructor) Hlines)
    as (entries & Hparse & Hlen & Hall).
  rewrite Hw in Hall.
  destruct entries as [|e [|e' entries]]; [done| |done].
  apply Forall2_cons_1 in Hall as [(Hurl & xmltv' & Hm' & Hgen') _].
  rewrite Hmatch in Hm'. injection Hm' as <-. rewrite Hid, Hgen in Hgen'.
  assert (Hdesc : pe_original_extinf e = text generated) by congruence.
  exists e. split_and!; [done|done|done| |done].
  rewrite (parse_m3u_hint_of_descriptor _ _ _ e Hparse) by apply list_elem_of_here.
  rewrite Hdesc, chars_text. unfold generated.
  rewrite search_attr_written; [done|done|done| |done].
  intros Hnil. apply Hid_ne. apply chars_inj. by rewrite Hnil.
Qed.

(** ** The further properties on the sample catalogs *)

Ltac not_in_text := apply (bool_decide_unpack _); vm_compute; exact I.

Lemma results_follow_playlist_order_witness :
  map m3u_data
    (auto_match_channels sample_ratio elements sample_playlist sample_guide 70 true true)
  = sample_playlist.
Proof.
  apply (results_follow_playlist_order sample_ratio elements sample_playlist
           sample_guide 70 true true).
  discriminate.
Defined.

Lemma association_is_guide_channel_witness : ch_hbo ∈ sample_guide.
Proof.
  apply (association_is_guide_channel sample_ratio elements sample_playlist
           sample_guide 70 true true r_hbo ch_hbo).
  - vm_compute. apply list_elem_of_here.
  - reflexivity.
Defined.

Lemma fuzzy_winner_is_best_witness :
  exists r winner before after,
    auto_match_channels sample_ratio elements sample_playlist sample_guide 70 true true
      !! 0%nat = Some r
    /\ fuzzy_choices elements (token_index_of sample_guide)
         (map ch_display_name sample_guide) (normalize_name (pe_name e_hbo))
       = before ++ winner :: after
    /\ score r = sample_ratio (pe_name e_hbo) winner
    /\ Forall (fun choice => sample_ratio (pe_name e_hbo) choice < score r) before
    /\ Forall (fun choice => sample_ratio (pe_name e_hbo) choice <= score r) after
    /\ xmltv_match r
       = channels_by_display_name_of sample_guide !! normalize_name winner.
Proof.
  apply (fuzzy_winner_is_best sample_ratio elements sample_ratio_range elements_perm
           sample_playlist sample_guide 70 true true 0 e_hbo).
  - reflexivity.
  - discriminate.
  - vm_compute. reflexivity.
  - vm_compute. reflexivity.
Defined.

Lemma identifier_rule_keeps_identifier_witness :
  exists ch,
    auto_match_channels sample_ratio elements sample_playlist sample_guide 70 true true
      !! 2%nat =
      Some {| m3u_data := e_kept; xmltv_match := Some ch; score := 100;
              selected := bool_decide (70 <= 100) |}
    /\ ch_id ch = Some (strip (pe_tvg_id e_kept))
    /\ ch ∈ sample_guide.
Proof.
  apply (identifier_rule_keeps_identifier sample_ratio elements sample_playlist
           sample_guide 70 true true 2 e_kept).
  - reflexivity.
  - vm_compute. reflexivity.
Defined.


Lemma matched_selected_written_agree_witness :
  let results := auto_match_channels sample_ratio elements sample_playlist sample_guide
                   70 true true in
  let k := length (filter written results) in
  update_match_counts 70 results
    = Some (length sample_playlist, k, (length sample_playlist - k)%nat, k)
  /\ forall lines count, generate_m3u results = Some (lines, count) -> count = k.
Proof.
  apply (matched_selected_written_agree sample_ratio elements sample_ratio_range
           elements_perm sample_playlist sample_guide 70 true true).
  - discriminate.
  - discriminate.
Defined.

Lemma generate_xmltv_reads_identifiers_only_witness :
  generate_xmltv [r_hbo] sample_folder
  = generate_xmltv
      [{| m3u_data := e_fox; xmltv_match := Some ch_hbo; score := 100; selected := true |}]
      sample_folder.
Proof.
  apply (generate_xmltv_reads_identifiers_only [r_hbo]).
  reflexivity.
Defined.

Lemma generate_m3u_replaces_identifier_witness :
  generate_m3u_lines [r_old_id] =
  Some ([text (extinf_field [minus] (chars "1") ++ space :: tvg_id_attr (chars "fox.us")
                 ++ (chars " group-title=" ++ quoted "News") ++ comma :: chars "Fox News");
         "http://example.org/fox"], 1%nat).
Proof.
  apply (generate_m3u_replaces_identifier r_old_id ch_fox
           [minus] (chars "1") (chars "old") (chars " group-title=" ++ quoted "News")
           (chars "Fox")).
  - reflexivity.
  - reflexivity.
  - reflexivity.
  - by right.
  - by repeat constructor.
  - not_in_text.
  - vm_compute. reflexivity.
  - not_in_text.
  - not_in_text.
  - vm_compute. reflexivity.
Defined.

Lemma rewrite_extinf_idempotent_witness :
  let generated :=
    text (extinf_field [minus] (chars "1") ++ space :: tvg_id_attr (chars "fox.us")
            ++ (chars " group-title=" ++ quoted "News") ++ comma :: chars "Fox News") in
  rewrite_extinf (pe_original_extinf e_news) (Some "fox.us") "Fox News" = Some generated
  /\ rewrite_extinf generated (Some "fox.us") "Fox News" = Some generated.
Proof.
  apply (rewrite_extinf_idempotent (pe_original_extinf e_news) (Some "fox.us") "Fox News"
           [minus] (chars "1") (chars " group-title=" ++ quoted "News") (chars "Fox")).
  - reflexivity.
  - by right.
  - discriminate.
  - by repeat constructor.
  - reflexivity.
  - vm_compute. reflexivity.
  - not_in_text.
  - not_in_text.
  - not_in_text.
  - not_in_text.
  - not_in_text.
  - vm_compute. reflexivity.
Defined.

Lemma parse_m3u_fields_stripped_witness :
  strip (pe_name e_parsed_hbo) = pe_name e_parsed_hbo
  /\ strip (pe_url e_parsed_hbo) = pe_url e_parsed_hbo
  /\ strip (pe_tvg_id e_parsed_hbo) = pe_tvg_id e_parsed_hbo
  /\ strip (pe_group_title e_parsed_hbo) = pe_group_title e_parsed_hbo
  /\ strip (pe_tvg_logo e_parsed_hbo) = pe_tvg_logo e_parsed_hbo.
Proof.
  apply (parse_m3u_fields_stripped "list.m3u" sample_content
           [e_parsed_hbo; e_parsed_fox] e_parsed_hbo).
  - vm_compute. reflexivity.
  - apply list_elem_of_here.
Defined.

Lemma parse_m3u_descriptor_line_witness :
  pe_source_file e_parsed_fox = "list.m3u"
  /\ exists d, chars (pe_original_extinf e_parsed_fox) = chars "#EXTINF:" ++ d
               /\ (newline ∉ d).
Proof.
  apply (parse_m3u_descriptor_line "list.m3u" sample_content
           [e_parsed_hbo; e_parsed_fox] e_parsed_fox).
  - vm_compute. reflexivity.
  - apply list_elem_of_further, list_elem_of_here.
Defined.

Lemma parse_m3u_hint_has_attribute_witness :
  has_tvg_id (chars (pe_original_extinf e_parsed_hbo)) = true.
Proof.
  apply (parse_m3u_hint_has_attribute "list.m3u" sample_content
           [e_parsed_hbo; e_parsed_fox] e_parsed_hbo).
  - vm_compute. reflexivity.
  - apply list_elem_of_here.
  - discriminate.
Defined.

Lemma parse_m3u_reads_back_witness :
  exists entries,
    parse_m3u "list.m3u" (file_text ("#EXTM3U" :: pair_lines sample_pairs)) = Some entries
    /\ map (fun e => (pe_original_extinf e, pe_url e)) entries
       = map (fun p => (p.1, strip p.2)) sample_pairs
    /\ length entries = length sample_pairs.
Proof.
  apply (parse_m3u_reads_back "list.m3u" sample_pairs).
  constructor; [|constructor; [|constructor]]; split.
  - exists (chars "-1 tvg-id=" ++ quoted "hbo.us"
              ++ chars " group-title=" ++ quoted "Movies" ++ chars ",HBO East").
    split; [vm_compute; reflexivity|not_in_text].
  - not_in_text.
  - exists (chars "-1,Fox"). split; [vm_compute; reflexivity|not_in_text].
  - not_in_text.
Defined.

Lemma parsed_hint_continuity_witness :
  auto_match_channels sample_ratio elements [e_parsed_hbo; e_parsed_fox] sample_guide
    70 true true !! 0%nat =
  Some {| m3u_data := e_parsed_hbo; xmltv_match := Some ch_hbo; score := 100;
          selected := bool_decide (70 <= 100) |}.
Proof.
  apply (parsed_hint_continuity sample_ratio elements "list.m3u" sample_content
           [e_parsed_hbo; e_parsed_fox] sample_guide 70 true 0 e_parsed_hbo ch_hbo).
  - vm_compute. reflexivity.
  - reflexivity.
  - discriminate.
  - vm_compute. reflexivity.
Defined.


Lemma inserted_identifier_is_read_back_witness :
  let generated :=
    text (extinf_field [minus] (chars "1") ++ space :: tvg_id_attr (chars "fox.us")
            ++ (chars " group-title=" ++ quoted "News")
            ++ comma :: chars (ch_display_name ch_fox)) in
  let lines := ["#EXTM3U"; generated; pe_url (m3u_data (r_news ch_fox))] in
  exists e,
    generate_m3u [r_news ch_fox] = Some (lines, 1%nat)
    /\ parse_m3u "list.m3u" (read_text (file_text lines)) = Some [e]
    /\ pe_original_extinf e = generated
    /\ pe_tvg_id e = strip "fox.us"
    /\ pe_url e = strip (pe_url (m3u_data (r_news ch_fox))).
Proof.
  apply (inserted_identifier_is_read_back "list.m3u" (r_news ch_fox) ch_fox "fox.us"
           [minus] (chars "1") (chars " group-title=" ++ quoted "News") (chars "Fox")).
  - reflexivity.
  - reflexivity.
  - reflexivity.
  - reflexivity.
  - by right.
  - discriminate.
  - by repeat constructor.
  - reflexivity.
  - vm_compute. reflexivity.
  - not_in_text.
  - discriminate.
  - not_in_text.
  - not_in_text.
  - vm_compute. reflexivity.
  - split_and!.
    + vm_compute. by eexists.
    + split; not_in_text.
    + split; not_in_text.
    + intros xmltv [= <-]. split; split; not_in_text.
Defined.
